(** * Hybrid document search: chunker, highlighter, score fusion, index service

    A shallow embedding of the search core of the document-intelligence
    server:

    - [EmbeddingService.splitIntoChunks] (server/services/documentService.js);
    - [SearchService] (server/services/searchService.js): the index state,
      [addDocumentToIndex], [removeDocumentFromIndex], [semanticSearch],
      [keywordSearch], [combineSearchResults], [generateHighlights], [search],
      [searchByDocument], [getSimilarDocuments], [getIndexStats].

    JavaScript strings are lists of characters, indices are integers ([Z],
    because [lastIndexOf] answers -1), scores are exact rationals ([Q]) in
    place of IEEE doubles, a [Map] keyed by document id is a [gmap], and a
    [Map] whose insertion order is observed is an association list.
    Exceptions are an explicit sum type with a [try]/[catch] combinator. *)

From Stdlib Require Import ZArith QArith Qminmax Qpower Qfield Lqa Lia Ascii String List Bool.
From Stdlib Require Import Sorting.Sorted.
From stdpp Require Import gmap strings list fin_maps pretty.
Import ListNotations.

Local Open Scope Z_scope.

(** ** JavaScript strings *)

Module JsString.

(** A string is the list of its characters. *)
Definition text := list ascii.

Definition of_string (s : string) : text := list_ascii_of_string s.

(** White space as [String.prototype.trim] and the regular-expression class
    [\s] see it, on the ASCII range: TAB, LF, VT, FF, CR and SPACE. *)
Definition is_ws (c : ascii) : bool :=
  let n := nat_of_ascii c in
  ((9 <=? n)%nat && (n <=? 13)%nat) || (n =? 32)%nat.

Fixpoint trimStart (s : text) : text :=
  match s with
  | [] => []
  | c :: r => if is_ws c then trimStart r else s
  end.

Definition trimEnd (s : text) : text := rev (trimStart (rev s)).

(** [s.trim()] *)
Definition trim (s : text) : text := trimEnd (trimStart s).

(** Clamp an index to [0, length s], as [substring] and [lastIndexOf] do. *)
Definition clamp (s : text) (i : Z) : nat :=
  Z.to_nat (Z.min (Z.max i 0) (Z.of_nat (length s))).

(** [s.substring(a, b)]: both ends are clamped and swapped when [a > b]. *)
Definition substring (s : text) (a b : Z) : text :=
  let a' := clamp s a in
  let b' := clamp s b in
  let lo := Nat.min a' b' in
  let hi := Nat.max a' b' in
  take (hi - lo) (drop lo s).

Fixpoint starts_with (pat s : text) : bool :=
  match pat, s with
  | [], _ => true
  | _ :: _, [] => false
  | p :: pat', c :: s' => Ascii.eqb p c && starts_with pat' s'
  end.

(** Does [pat] occur in [s] at index [k]? *)
Definition occurs_at (pat s : text) (k : nat) : bool :=
  starts_with pat (drop k s).

(** The largest index [<= k] where [pat] occurs, or -1. *)
Fixpoint lastIndexOf_from (pat s : text) (k : nat) : Z :=
  if occurs_at pat s k then Z.of_nat k
  else match k with
       | O => -1
       | S k' => lastIndexOf_from pat s k'
       end.

(** [s.lastIndexOf(pat, position)] *)
Definition lastIndexOf (pat s : text) (position : Z) : Z :=
  lastIndexOf_from pat s (clamp s position).

(** [s.toLowerCase()] on the ASCII letters. *)
Definition lower_char (c : ascii) : ascii :=
  let n := nat_of_ascii c in
  if ((65 <=? n)%nat && (n <=? 90)%nat) then ascii_of_nat (n + 32) else c.

Definition toLowerCase (s : text) : text := map lower_char s.

(** [s.split(/[...]+/)] for a character class [sep]: cut at every maximal
    run of separators. A leading or trailing run leaves an empty first or
    last piece, and the empty string splits into one empty piece. *)
Fixpoint split_runs_aux (sep : ascii -> bool) (cur : text) (in_run : bool)
    (s : text) : list text :=
  match s with
  | [] => [rev cur]
  | c :: r =>
      if sep c
      then (if in_run then split_runs_aux sep cur true r
            else rev cur :: split_runs_aux sep [] true r)
      else split_runs_aux sep (c :: cur) false r
  end.

Definition split_runs (sep : ascii -> bool) (s : text) : list text :=
  split_runs_aux sep [] false s.

(** [s.split(/\s+/)] *)
Definition split_ws (s : text) : list text := split_runs is_ws s.

(** [s.includes(pat)] *)
Definition includes (pat s : text) : bool :=
  existsb (occurs_at pat s) (seq 0 (S (length s))).

End JsString.

Import JsString.

(** ** The chunker: [EmbeddingService.splitIntoChunks] *)

Module Chunker.

(** The fields the constructor sets: [chunkSize = 1000],
    [chunkOverlap = 200]. *)
Record Config := mkConfig { chunkSize : Z; chunkOverlap : Z }.

Definition defaultConfig : Config := mkConfig 1000 200.

Record Chunk := mkChunk {
  chunk_text : text;
  startIndex : Z;
  endIndex : Z
}.

Definition dot : text := of_string ".".
Definition paragraph_break : text := [ascii_of_nat 10; ascii_of_nat 10].

(** The end of the window that starts at [start]: the raw boundary, moved
    to just after the last sentence or paragraph end when that lies beyond
    half a window. [breakPoint > startIndex + chunkSize * 0.5] is compared
    after doubling both sides, which is exact on integers. *)
Definition chunkEndAt (cfg : Config) (t : text) (start : Z) : Z :=
  let len := Z.of_nat (length t) in
  let endIdx := Z.min (start + chunkSize cfg) len in
  if endIdx <? len then
    let lastSentenceEnd := lastIndexOf dot t endIdx in
    let lastParagraphEnd := lastIndexOf paragraph_break t endIdx in
    let breakPoint := Z.max lastSentenceEnd lastParagraphEnd in
    if 2 * start + chunkSize cfg <? 2 * breakPoint
    then breakPoint + 1
    else endIdx
  else endIdx.

(** [Math.max(chunkEnd - this.chunkOverlap, startIndex + 1)] *)
Definition nextStart (cfg : Config) (t : text) (start : Z) : Z :=
  Z.max (chunkEndAt cfg t start - chunkOverlap cfg) (start + 1).

(** One iteration of the body of the [while] loop: the chunks after it. *)
Definition pushChunk (cfg : Config) (t : text) (start : Z)
    (chunks : list Chunk) : list Chunk :=
  let chunkEnd := chunkEndAt cfg t start in
  let chunkText := trim (substring t start chunkEnd) in
  if (0 <? length chunkText)%nat
  then chunks ++ [mkChunk chunkText start chunkEnd]
  else chunks.

(** The [while (startIndex < text.length)] loop; [None] when the fuel runs
    out before the loop leaves. *)
Fixpoint splitLoop (cfg : Config) (t : text) (fuel : nat) (start : Z)
    (chunks : list Chunk) : option (list Chunk) :=
  if start <? Z.of_nat (length t) then
    match fuel with
    | O => None
    | S fuel' =>
        splitLoop cfg t fuel' (nextStart cfg t start)
                  (pushChunk cfg t start chunks)
    end
  else Some chunks.

Definition splitIntoChunks (cfg : Config) (t : text) : option (list Chunk) :=
  splitLoop cfg t (length t) 0 [].

End Chunker.

(** ** Exceptions *)

(** What a JavaScript call can throw here: the runtime's own errors and the
    errors of the libraries and of the document store. *)
Inductive JsError :=
  | TypeError
  | SyntaxError
  | LibraryError (msg : string).

(** The outcome of a call: a value, or a thrown error. *)
Inductive result (A : Type) :=
  | Ok (a : A)
  | Throw (e : JsError).
Arguments Ok {A} a.
Arguments Throw {A} e.

Definition bind {A B} (c : result A) (k : A -> result B) : result B :=
  match c with
  | Ok a => k a
  | Throw e => Throw e
  end.

Notation "'let*' x ':=' c 'in' k" := (bind c (fun x => k))
  (at level 10, x pattern, c at level 100, k at level 200).

(** [try { body } catch (error) { handler }] *)
Definition try_catch {A} (body : result A) (handler : JsError -> result A)
    : result A :=
  match body with
  | Ok a => Ok a
  | Throw e => handler e
  end.

Definition is_ok {A} (c : result A) : bool :=
  match c with Ok _ => true | Throw _ => false end.

(** [xs.map(f)] where [f] may throw: the first error leaves the loop. *)
Fixpoint mapM {A B} (f : A -> result B) (xs : list A) : result (list B) :=
  match xs with
  | [] => Ok []
  | x :: r => let* y := f x in let* ys := mapM f r in Ok (y :: ys)
  end.

(** ** JavaScript values *)

(** What a property read gives where it need not be a number: a count,
    [NaN], or a function object. *)
Inductive JsValue :=
  | JsNumber (n : nat)
  | JsNaN
  | JsFunction.

(** [v === 0] *)
Definition strictEqualsZero (v : JsValue) : bool :=
  match v with
  | JsNumber O => true
  | _ => false
  end.

(** [Math.min(n, v)]: a function object converts to [NaN], and [NaN] wins. *)
Definition mathMin (n : nat) (v : JsValue) : JsValue :=
  match v with
  | JsNumber m => JsNumber (Nat.min n m)
  | _ => JsNaN
  end.

(** An argument as the caller hands it over: left out ([undefined], which a
    default parameter replaces), [null], or a value. *)
Inductive JsArg (A : Type) :=
  | Undefined
  | Null
  | Given (a : A).
Arguments Undefined {A}.
Arguments Null {A}.
Arguments Given {A} a.

(** ** [Array.prototype.sort] *)

(** The sort is stable, so its result is fixed by the comparator alone.
    [after x y] says that the comparator puts [x] behind [y]
    ([compare(x, y) > 0]); insertion from the right keeps equal elements in
    their first order. *)
Section JsSort.
Context {A : Type} (after : A -> A -> bool).

Fixpoint insertSorted (x : A) (l : list A) : list A :=
  match l with
  | [] => [x]
  | y :: r => if after x y then y :: insertSorted x r else x :: l
  end.

Definition jsSort (l : list A) : list A := foldr insertSorted [] l.
End JsSort.

(** ** The highlighter: [SearchService.generateHighlights] *)

Module Highlighter.

Record Highlight := mkHighlight {
  hl_text : text;
  hl_start : Z;     (* startIndex *)
  hl_end : Z;       (* endIndex *)
  hl_type : string  (* always 'keyword' *)
}.

(** One entry of [content.matchAll(regex)]: [match.index] and [match[0]]. *)
Record RegExpMatch := mkMatch { m_index : Z; m_text : text }.

(** The regular-expression engine of the runtime. [matchAll word content]
    stands for
    [[...content.matchAll(new RegExp(`(${word})`, 'gi'))]]: the query word
    is spliced into the pattern as it is, so the constructor throws
    [SyntaxError] on a word that is no valid pattern. *)
Definition RegExpEngine := text -> text -> result (list RegExpMatch).

Section WithEngine.
Variable matchAll : RegExpEngine.

Definition highlightOf (m : RegExpMatch) : Highlight :=
  mkHighlight (m_text m) (m_index m)
              (m_index m + Z.of_nat (length (m_text m))) "keyword".

(** [queryWords.forEach(word => { if (word.length > 2) ... push ... })] *)
Fixpoint collectMatches (content : text) (queryWords : list text)
    (highlights : list Highlight) : result (list Highlight) :=
  match queryWords with
  | [] => Ok highlights
  | word :: rest =>
      if (2 <? length word)%nat then
        let* matches := matchAll word content in
        collectMatches content rest (highlights ++ map highlightOf matches)
      else collectMatches content rest highlights
  end.

(** [(a, b) => a.startIndex - b.startIndex] puts [a] behind [b] when the
    difference is positive. *)
Definition startsAfter (a b : Highlight) : bool := 0 <? hl_start a - hl_start b.

(** The test inside [filteredHighlights.some(...)]. *)
Definition hasOverlapWith (highlight existing : Highlight) : bool :=
  ((hl_start existing <=? hl_start highlight) &&
   (hl_start highlight <? hl_end existing))
  || ((hl_start existing <? hl_end highlight) &&
      (hl_end highlight <=? hl_end existing)).

(** The [for ... of sortedHighlights] loop. *)
Definition keepIfFree (filtered : list Highlight) (highlight : Highlight)
    : list Highlight :=
  if existsb (hasOverlapWith highlight) filtered
  then filtered
  else filtered ++ [highlight].

Definition removeOverlaps (sortedHighlights : list Highlight)
    : list Highlight :=
  fold_left keepIfFree sortedHighlights [].

Definition generateHighlights (content query : text)
    : result (list Highlight) :=
  let queryWords := split_ws (toLowerCase query) in
  let* highlights := collectMatches content queryWords [] in
  let sortedHighlights := jsSort startsAfter highlights in
  let filteredHighlights := removeOverlaps sortedHighlights in
  Ok (take 10 filteredHighlights).
End WithEngine.

(** A concrete engine for query words without pattern metacharacters: the
    pattern [(word)] with flags [gi] then finds the occurrences of the word,
    case-insensitively, left to right and without overlap, and reports the
    matched slice of the content. *)
Fixpoint literalScan (fuel : nat) (word content : text) (pos : nat)
    : list RegExpMatch :=
  match fuel with
  | O => []
  | S fuel' =>
      if (length content <? pos + length word)%nat then []
      else if occurs_at word (toLowerCase content) pos
      then mkMatch (Z.of_nat pos) (take (length word) (drop pos content))
           :: literalScan fuel' word content (pos + Nat.max 1 (length word))
      else literalScan fuel' word content (S pos)
  end.

Definition is_meta (c : ascii) : bool :=
  existsb (Ascii.eqb c) (of_string "\^$.|?*+()[]{}").

Definition literalEngine : RegExpEngine := fun word content =>
  if existsb is_meta word then Throw SyntaxError
  else Ok (literalScan (S (length content)) word content 0).

End Highlighter.

(** ** Search results and score fusion: [SearchService.combineSearchResults] *)

Module Fusion.
Import Highlighter.

Inductive SearchType := semantic | keyword | hybrid | document.

(** [metadata] of a result: the stored document's, or the sentence data
    that [searchByDocument] attaches. *)
Inductive Metadata :=
  | DocumentMetadata (createdAt updatedAt : Z)
  | SentenceMetadata (sentenceIndex : nat) (matches : list text).

Record SearchResult := mkResult {
  sr_id : string;
  documentId : string;
  title : text;
  content : text;
  relevanceScore : Q;
  metadata : Metadata;
  searchType : SearchType;
  highlights : option (list Highlight)  (* absent until [search] adds them *)
}.

Definition set_score (q : Q) (r : SearchResult) : SearchResult :=
  mkResult (sr_id r) (documentId r) (title r) (content r) q
           (metadata r) (searchType r) (highlights r).

Definition set_type (t : SearchType) (r : SearchResult) : SearchResult :=
  mkResult (sr_id r) (documentId r) (title r) (content r) (relevanceScore r)
           (metadata r) t (highlights r).

Definition set_highlights (h : list Highlight) (r : SearchResult)
    : SearchResult :=
  mkResult (sr_id r) (documentId r) (title r) (content r) (relevanceScore r)
           (metadata r) (searchType r) (Some h).

(** The [Map] [combinedResults]: its values are read back in insertion
    order, so it is a list of bindings with distinct keys. *)
Definition ResultMap := list (string * SearchResult).

Fixpoint mapGet (key : string) (m : ResultMap) : option SearchResult :=
  match m with
  | [] => None
  | (k, v) :: rest => if String.eqb k key then Some v else mapGet key rest
  end.

(** Mutation of the object bound to [key], in place. *)
Fixpoint mapUpdate (key : string) (f : SearchResult -> SearchResult)
    (m : ResultMap) : ResultMap :=
  match m with
  | [] => []
  | (k, v) :: rest =>
      if String.eqb k key then (k, f v) :: rest
      else (k, v) :: mapUpdate key f rest
  end.

Definition semanticWeight : Q := 8 # 10.
Definition keywordWeight : Q := 6 # 10.

(** The body shared by the two [forEach] callbacks, which differ in the
    weight only. *)
Definition mergeResult (weight : Q) (combinedResults : ResultMap)
    (r : SearchResult) : ResultMap :=
  let key := documentId r in
  match mapGet key combinedResults with
  | Some _ =>
      mapUpdate key
        (fun existing =>
           set_type hybrid
             (set_score (Qmax (relevanceScore existing)
                              (relevanceScore r * weight)) existing))
        combinedResults
  | None =>
      combinedResults ++ [(key, set_score (relevanceScore r * weight) r)]
  end.

(** The map after both loops. *)
Definition mergeAll (semanticResults keywordResults : list SearchResult)
    : ResultMap :=
  fold_left (mergeResult keywordWeight) keywordResults
    (fold_left (mergeResult semanticWeight) semanticResults []).

(** [(a, b) => b.relevanceScore - a.relevanceScore] puts [a] behind [b]
    when the difference is positive. *)
Definition scoresBelow (a b : SearchResult) : bool :=
  negb (Qle_bool (relevanceScore b - relevanceScore a) 0).

Definition combineSearchResults
    (semanticResults keywordResults : list SearchResult) (limit : nat)
    : list SearchResult :=
  take limit
    (jsSort scoresBelow (map snd (mergeAll semanticResults keywordResults))).

End Fusion.

(** ** The vector index: [IndexFlatL2] of faiss-node *)

(** The library is not part of the repository. The model is its documented
    behaviour: an exact (brute-force) index of vectors of one dimension [d],
    squared Euclidean distance, hits in ascending distance with the earlier
    label first among equals. [add] takes an array of [n * d] numbers and
    appends [n] vectors; [search] takes [n * d] numbers as [n] queries and
    answers the [k] nearest for each, one query after the other; both reject
    an array of another length, and [search] rejects [k > ntotal].
    [ntotal] is a method of the index. *)
Module Faiss.

Definition vector := list Q.

Record IndexFlatL2 := mkIndex { dimension : nat; stored : list vector }.

(** [index.ntotal()] *)
Definition ntotal (index : IndexFlatL2) : nat := length (stored index).

(** [index.ntotal], read without a call: the method itself. *)
Definition ntotalProperty (index : IndexFlatL2) : JsValue := JsFunction.

(** An array of [n * d] numbers as [n] vectors of [d] numbers. *)
Fixpoint splitEvery (fuel d : nat) (x : vector) : list vector :=
  match fuel with
  | O => []
  | S fuel' =>
      match x with
      | [] => []
      | _ :: _ => take d x :: splitEvery fuel' d (drop d x)
      end
  end.

Definition rows (d : nat) (x : vector) : list vector :=
  splitEvery (length x) d x.

Definition add (index : IndexFlatL2) (x : vector) : result IndexFlatL2 :=
  if (length x mod dimension index =? 0)%nat
  then Ok (mkIndex (dimension index)
                   (stored index ++ rows (dimension index) x))
  else Throw (LibraryError "Invalid the given array length.").

(** Squared Euclidean distance. *)
Fixpoint l2sq (u v : vector) : Q :=
  match u, v with
  | a :: u', b :: v' => (a - b) * (a - b) + l2sq u' v'
  | _, _ => 0
  end.

Record Hit := mkHit { label : nat; distance : Q }.

Definition farther (a b : Hit) : bool :=
  negb (Qle_bool (distance a) (distance b)).

Definition allHits (index : IndexFlatL2) (q : vector) : list Hit :=
  imap (fun i v => mkHit i (l2sq q v)) (stored index).

(** The [k] nearest stored vectors of one query. *)
Definition nearest (index : IndexFlatL2) (k : nat) (q : vector) : list Hit :=
  take k (jsSort farther (allHits index q)).

(** The second argument of [search] must be a number; it is read as an
    unsigned integer, which makes [NaN] a zero. *)
Definition toCount (k : JsValue) : result nat :=
  match k with
  | JsNumber n => Ok n
  | JsNaN => Ok O
  | JsFunction => Throw TypeError
  end.

(** [index.search(x, k)] *)
Definition search (index : IndexFlatL2) (x : vector) (k : JsValue)
    : result (list Hit) :=
  let* k := toCount k in
  if (ntotal index <? k)%nat
  then Throw (LibraryError "Invalid the number of k.")
  else if negb (length x mod dimension index =? 0)%nat
  then Throw (LibraryError "Invalid the given array length.")
  else Ok (concat (map (nearest index k) (rows (dimension index) x))).

End Faiss.

(** ** The search service: [SearchService] *)

Module Service.
Import Highlighter Fusion Faiss.

(** A record of the document store (the Mongoose model [Document]), with
    the fields the service reads. An absent [summary], [embeddings] or
    [vector] is the empty one: the code tests them with [&& length > 0]
    and [|| '']. *)
Record Embedding := mkEmbedding { chunkId : string; e_vector : vector }.

Record Document := mkDocument {
  _id : string;
  d_title : text;
  extractedText : text;
  ocrText : text;
  summary : text;
  status : string;
  d_embeddings : list Embedding;
  createdAt : Z;
  updatedAt : Z
}.

(** A value of the [documents] map. *)
Record StoredDocument := mkStored {
  st_id : string;
  st_title : text;
  st_content : text;
  st_summary : text;
  st_metadata : Metadata
}.

(** What the keyword index holds: the texts added, each with its id. *)
Definition Bm25Index := list (text * string).

(** The fields of the service object. [None] is JavaScript's [null]. *)
Record SearchService := mkService {
  faissIndex : option IndexFlatL2;
  bm25Index : option Bm25Index;
  documents : gmap string StoredDocument;
  embeddings : list vector;
  documentIds : list string;
  initialized : bool
}.

(** The state the constructor leaves. *)
Definition newService : SearchService :=
  mkService None None ∅ [] [] false.

(** The collaborators outside the repository, whose answers the service
    only consumes: the random source behind [generateQueryEmbedding]
    ([draws query i] decides the [i]-th call of [Math.random] for that
    query), the document store, the ranking of the keyword index, and the
    regular-expression engine. Each may throw where the real one may. *)
Record World := mkWorld {
  draws : text -> nat -> Q;
  findById : string -> result (option Document);
  findReady : result (list Document);
  bm25Construct : result Bm25Index;
  bm25Search : Bm25Index -> text -> nat -> result (list (string * Q));
  matchAll : RegExpEngine
}.

(** [`${extractedText} ${ocrText}`.trim()] *)
Definition fullTextOf (d : Document) : text :=
  trim (extractedText d ++ of_string " " ++ ocrText d).

Definition storedOf (d : Document) : StoredDocument :=
  mkStored (_id d) (d_title d) (fullTextOf d) (summary d)
           (DocumentMetadata (createdAt d) (updatedAt d)).

(** *** Mutators. A [catch] keeps what the [try] block had already
    written, so a step answers the state it reached and the error, if
    any, that stopped it. *)

Definition withDocuments (m : gmap string StoredDocument) (s : SearchService)
    : SearchService :=
  mkService (faissIndex s) (bm25Index s) m (embeddings s) (documentIds s)
            (initialized s).

(** The body of the loop over [document.embeddings]. *)
Definition addEmbedding (docId : string) (s : SearchService) (e : Embedding)
    : SearchService * option JsError :=
  if (0 <? length (e_vector e))%nat then
    match faissIndex s with
    | None => (s, Some TypeError)
    | Some index =>
        match add index (e_vector e) with
        | Throw err => (s, Some err)
        | Ok index' =>
            (mkService (Some index') (bm25Index s) (documents s)
                       (embeddings s ++ [e_vector e])
                       (documentIds s ++ [docId]) (initialized s), None)
        end
    end
  else (s, None).

Fixpoint addEmbeddings (docId : string) (s : SearchService)
    (es : list Embedding) : SearchService * option JsError :=
  match es with
  | [] => (s, None)
  | e :: rest =>
      match addEmbedding docId s e with
      | (s', None) => addEmbeddings docId s' rest
      | stopped => stopped
      end
  end.

Definition addDocumentToIndex (s : SearchService) (d : Document)
    : SearchService :=
  let docId := _id d in
  let s1 := withDocuments (<[docId := storedOf d]> (documents s)) s in
  match addEmbeddings docId s1 (d_embeddings d) with
  | (s2, Some _) => s2
  | (s2, None) =>
      match bm25Index s2 with
      | None => s2
      | Some index =>
          mkService (faissIndex s2) (Some (index ++ [(fullTextOf d, docId)]))
                    (documents s2) (embeddings s2) (documentIds s2)
                    (initialized s2)
      end
  end.

(** The positions of [documentId] in [documentIds], which the code
    collects in [indicesToRemove] and then leaves unused. *)
Definition indicesToRemove (s : SearchService) (documentId : string)
    : list nat :=
  omap (fun '(index, id) => if String.eqb id documentId then Some index
                            else None)
       (imap (fun index id => (index, id)) (documentIds s)).

Definition removeDocumentFromIndex (s : SearchService) (documentId : string)
    : SearchService :=
  let s' := withDocuments (delete documentId (documents s)) s in
  let _ := indicesToRemove s' documentId in
  s'.

Definition updateDocument (W : World) (s : SearchService)
    (documentId : string) : SearchService :=
  match findById W documentId with
  | Throw _ => s
  | Ok None => s
  | Ok (Some d) =>
      let s' := removeDocumentFromIndex s documentId in
      if String.eqb (status d) "ready" && (0 <? length (d_embeddings d))%nat
      then addDocumentToIndex s' d
      else s'
  end.

Definition loadDocuments (W : World) (s : SearchService) : SearchService :=
  match findReady W with
  | Throw _ => s
  | Ok docs =>
      fold_left
        (fun s d => if (0 <? length (d_embeddings d))%nat
                    then addDocumentToIndex s d else s)
        docs s
  end.

(** [initialize]: the error, if any, is thrown again after logging. *)
Definition initialize (W : World) (s : SearchService)
    : SearchService * option JsError :=
  let s1 := mkService (Some (mkIndex 1536 [])) (bm25Index s) (documents s)
                      (embeddings s) (documentIds s) (initialized s) in
  match bm25Construct W with
  | Throw err => (s1, Some err)
  | Ok index =>
      let s2 := mkService (faissIndex s1) (Some index) (documents s1)
                          (embeddings s1) (documentIds s1) (initialized s1) in
      let s3 := loadDocuments W s2 in
      (mkService (faissIndex s3) (bm25Index s3) (documents s3)
                 (embeddings s3) (documentIds s3) true, None)
  end.

Record IndexStats := mkStats {
  totalDocuments : nat;
  totalEmbeddings : JsValue;
  stats_initialized : bool
}.

(** [totalEmbeddings] is [this.faissIndex.ntotal], read without a call. *)
Definition getIndexStats (s : SearchService) : IndexStats :=
  mkStats (size (documents s))
          (match faissIndex s with
           | Some index => ntotalProperty index
           | None => JsNumber 0
           end)
          (initialized s).

End Service.

(** ** The query operations of [SearchService] *)

Module Query.
Import Highlighter Fusion Faiss Service.

(** Reading a property of [this.faissIndex] or [this.bm25Index] while it is
    [null] throws [TypeError]. *)
Definition deref {A} (o : option A) : result A :=
  match o with
  | Some a => Ok a
  | None => Throw TypeError
  end.

(** [`${docId}_${i}`] *)
Definition indexedId (docId : string) (i : nat) : string :=
  (docId +:+ "_" +:+ pretty i)%string.

(** [1 - (distances[i] / 2)] *)
Definition scoreOfDistance (d : Q) : Q := 1 - d / 2.

(** The loop of [semanticSearch] over [labels], from position [i] on. *)
Fixpoint semanticResultsFrom (s : SearchService) (i : nat) (hits : list Hit)
    : list SearchResult :=
  match hits with
  | [] => []
  | h :: rest =>
      let later := semanticResultsFrom s (S i) rest in
      match documentIds s !! label h with
      | None => later
      | Some docId =>
          match documents s !! docId with
          | None => later
          | Some doc =>
              mkResult (indexedId docId i) docId (st_title doc)
                       (st_content doc) (scoreOfDistance (distance h))
                       (st_metadata doc) semantic None
              :: later
          end
      end
  end.

(** [Math.random()]: a number of [0, 1). Whatever rational the world
    supplies is brought into that range by taking its fractional part. *)
Definition mathRandom (x : Q) : Q :=
  (Qnum x mod Zpos (Qden x)) # Qden x.

(** [Array.from({ length: 1536 }, () => Math.random() - 0.5)]: the
    placeholder embedding of a query, 1536 numbers of [-0.5, 0.5). *)
Definition generateQueryEmbedding (W : World) (query : text) : vector :=
  map (fun i => mathRandom (draws W query i) - (1 # 2))%Q (seq 0 1536).

(** [this.faissIndex.ntotal] is read without a call, both in the test
    against 0 and as the second argument of [Math.min]. *)
Definition semanticSearch (W : World) (s : SearchService) (query : text)
    (limit : nat) : result (list SearchResult) :=
  try_catch
    (let queryEmbedding := generateQueryEmbedding W query in
     let* index := deref (faissIndex s) in
     if strictEqualsZero (ntotalProperty index) then Ok []
     else
       let* hits :=
         Faiss.search index queryEmbedding
                      (mathMin (limit * 2) (ntotalProperty index)) in
       Ok (semanticResultsFrom s 0 hits))
    (fun _ => Ok []).

(** The [map] callback of [keywordSearch], followed by [filter(Boolean)]. *)
Definition keywordResultOf (s : SearchService) (hit : string * Q)
    : option SearchResult :=
  let docId := fst hit in
  match documents s !! docId with
  | Some doc =>
      Some (mkResult (docId +:+ "_keyword")%string docId (st_title doc)
                     (st_content doc) (snd hit) (st_metadata doc) keyword None)
  | None => None
  end.

Definition keywordSearch (W : World) (s : SearchService) (query : text)
    (limit : nat) : result (list SearchResult) :=
  try_catch
    (match bm25Index s with
     | None => Ok []
     | Some index =>
         let* results := bm25Search W index query limit in
         Ok (omap (keywordResultOf s) results)
     end)
    (fun _ => Ok []).

(** [options] of [search]; an absent field takes its default. *)
Record SearchOptions := mkOptions {
  opt_limit : option nat;
  opt_threshold : option Q;
  opt_useHybrid : option bool;
  opt_includeHighlights : option bool
}.

Definition noOptions : SearchOptions := mkOptions None None None None.

(** An options object, handed over as such. *)
Coercion optionsObject (o : SearchOptions) : JsArg SearchOptions := Given o.

Definition limitOf (o : SearchOptions) : nat := default 10%nat (opt_limit o).
Definition thresholdOf (o : SearchOptions) : Q := default (7 # 10) (opt_threshold o).
Definition useHybridOf (o : SearchOptions) : bool := default true (opt_useHybrid o).
Definition includeHighlightsOf (o : SearchOptions) : bool :=
  default true (opt_includeHighlights o).

(** [result.relevanceScore >= threshold] *)
Definition reaches (threshold : Q) (r : SearchResult) : bool :=
  Qle_bool threshold (relevanceScore r).

Definition withHighlights (W : World) (query : text) (r : SearchResult)
    : result SearchResult :=
  let* hs := generateHighlights (matchAll W) (content r) query in
  Ok (set_highlights hs r).

(** The [try] block of [search]. *)
Definition searchBody (W : World) (s : SearchService) (query : text)
    (o : SearchOptions) : result (list SearchResult) :=
  let limit := limitOf o in
  let* results :=
    if useHybridOf o then
      let* semanticResults := semanticSearch W s query (limit * 2) in
      let* keywordResults := keywordSearch W s query (limit * 2) in
      Ok (combineSearchResults semanticResults keywordResults limit)
    else semanticSearch W s query limit in
  let results := List.filter (reaches (thresholdOf o)) results in
  let* results :=
    if includeHighlightsOf o then mapM (withHighlights W query) results
    else Ok results in
  Ok (take limit results).

(** [async search(query, options = {})]. The options are destructured
    before the [try] block is entered: a caller that passes [null] gets the
    [TypeError] of the destructuring, and one that passes nothing gets the
    defaults. *)
Definition search (W : World) (s : SearchService) (query : text)
    (options : JsArg SearchOptions) : result (list SearchResult) :=
  match options with
  | Null => Throw TypeError
  | Undefined => try_catch (searchBody W s query noOptions) (fun _ => Ok [])
  | Given o => try_catch (searchBody W s query o) (fun _ => Ok [])
  end.

(** *** [searchByDocument] *)

(** The class [[.!?]] of the sentence split. *)
Definition is_sentence_end (c : ascii) : bool :=
  existsb (Ascii.eqb c) (of_string ".!?").

(** [sentence.trim().length > 0] *)
Definition nonBlank (sentence : text) : bool := (0 <? length (trim sentence))%nat.

(** [word.length > 2 && sentenceLower.includes(word)] *)
Definition wordMatches (sentenceLower word : text) : bool :=
  (2 <? length word)%nat && includes word sentenceLower.

(** [matches.length / queryWords.length] *)
Definition matchRatio (matches queryWords : list text) : Q :=
  inject_Z (Z.of_nat (length matches)) / inject_Z (Z.of_nat (length queryWords)).

(** The callback of [sentences.forEach]: the result pushed for the sentence
    at [index], if any. *)
Definition sentenceResult (documentId : string) (doc : Document)
    (queryWords : list text) (index : nat) (sentence : text)
    : option SearchResult :=
  let sentenceLower := toLowerCase sentence in
  let matches := List.filter (wordMatches sentenceLower) queryWords in
  if (0 <? length matches)%nat then
    Some (mkResult (indexedId documentId index) documentId (d_title doc)
                   (trim sentence) (matchRatio matches queryWords)
                   (SentenceMetadata index matches) document None)
  else None.

(** [options.limit || 10] *)
Definition limitOr10 (o : SearchOptions) : nat :=
  match opt_limit o with
  | Some (S n) => S n
  | _ => 10%nat
  end.

Definition sentencesOf (fullText : text) : list text :=
  List.filter nonBlank (split_runs is_sentence_end fullText).

(** Reading [options.limit] throws when [options] is [null]. *)
Definition limitOfArg (options : JsArg SearchOptions) : result nat :=
  match options with
  | Null => Throw TypeError
  | Undefined => Ok (limitOr10 noOptions)
  | Given o => Ok (limitOr10 o)
  end.

Definition searchByDocumentBody (W : World) (documentId : string)
    (query : text) (options : JsArg SearchOptions)
    : result (list SearchResult) :=
  let* found := findById W documentId in
  match found with
  | None => Ok []
  | Some doc =>
      let fullText := fullTextOf doc in
      let queryWords := split_ws (toLowerCase query) in
      let sentences := sentencesOf fullText in
      let results :=
        omap id (imap (sentenceResult documentId doc queryWords) sentences) in
      let sorted := jsSort scoresBelow results in
      let* limit := limitOfArg options in
      Ok (take limit sorted)
  end.

Definition searchByDocument (W : World) (documentId : string) (query : text)
    (options : JsArg SearchOptions) : result (list SearchResult) :=
  try_catch (searchByDocumentBody W documentId query options)
            (fun _ => Ok []).

(** *** [getSimilarDocuments] *)

Record SimilarDocument := mkSimilar {
  sim_id : string;
  sim_title : text;
  sim_content : text;
  sim_score : Q;
  sim_metadata : Metadata
}.

(** The loop over [labels]. *)
Fixpoint similarFrom (s : SearchService) (documentId : string)
    (hits : list Hit) : list SimilarDocument :=
  match hits with
  | [] => []
  | h :: rest =>
      let later := similarFrom s documentId rest in
      match documentIds s !! label h with
      | None => later
      | Some similarDocId =>
          if String.eqb similarDocId documentId then later
          else match documents s !! similarDocId with
               | None => later
               | Some doc =>
                   mkSimilar similarDocId (st_title doc) (st_content doc)
                             (scoreOfDistance (distance h)) (st_metadata doc)
                   :: later
               end
      end
  end.

Definition getSimilarDocumentsBody (W : World) (s : SearchService)
    (documentId : string) (limit : nat) : result (list SimilarDocument) :=
  let* found := findById W documentId in
  match found with
  | None => Ok []
  | Some doc =>
      match d_embeddings doc with
      | [] => Ok []
      | first :: _ =>
          let* index := deref (faissIndex s) in
          let* hits :=
            Faiss.search index (e_vector first) (JsNumber (limit + 1)) in
          Ok (take limit (similarFrom s documentId hits))
      end
  end.

(** [limit] is 5 when the caller leaves it out. *)
Definition getSimilarDocuments (W : World) (s : SearchService)
    (documentId : string) (limit : option nat)
    : result (list SimilarDocument) :=
  try_catch (getSimilarDocumentsBody W s documentId (default 5%nat limit))
            (fun _ => Ok []).

End Query.

(** ** Predicates and sample data of the statements below *)

Module Spec.
Import Chunker Highlighter Fusion Faiss Service Query.

(** The shape of a chunk pushed for the window at [start]. *)
Definition well_formed (cfg : Config) (t : text) (c : Chunk) : Prop :=
  0 <= startIndex c < endIndex c /\
  endIndex c <= Z.of_nat (length t) /\
  chunk_text c = trim (substring t (startIndex c) (endIndex c)) /\
  (1 <= length (chunk_text c))%nat /\
  Z.of_nat (length (chunk_text c)) <= chunkSize cfg + 1.

(** A thousand letters, a full stop and one more letter. *)
Definition long_sentence : text :=
  repeat "a"%char 1000 ++ of_string ".b".

(** Offsets and text length of the first chunk, if there is one. *)
Definition firstChunkShape (chunks : option (list Chunk))
    : option (Z * Z * nat) :=
  match chunks with
  | Some (first :: _) =>
      Some (startIndex first, endIndex first, length (chunk_text first))
  | _ => None
  end.

(** The range of the chunk holds the index [p]. *)
Definition covers (ch : Chunk) (p : nat) : Prop :=
  startIndex ch <= Z.of_nat p < endIndex ch.

(** Two highlights intersect when some index lies in both half-open
    ranges [startIndex, endIndex). *)
Definition intersect (a b : Highlight) : Prop :=
  exists x, (hl_start a <= x < hl_end a) /\ (hl_start b <= x < hl_end b).

(** [a] starts no later than [b] and the two do not intersect. *)
Definition ordered_apart (a b : Highlight) : Prop :=
  hl_start a <= hl_start b /\ ~ intersect a b.

Definition starts_le (a b : Highlight) : Prop := hl_start a <= hl_start b.

(** A result as [semanticSearch] or [keywordSearch] would build it, with
    the fields that the fusion does not read left empty. *)
Definition sampleResult (docId : string) (score : Q) (t : SearchType)
    : SearchResult :=
  mkResult (docId +:+ "_0")%string docId [] [] score (DocumentMetadata 0 0)
           t None.

(** The two result lists in the order the loops visit them, each result
    with the weight of its loop. *)
Definition weighted (semanticResults keywordResults : list SearchResult)
    : list (Q * SearchResult) :=
  map (pair semanticWeight) semanticResults
  ++ map (pair keywordWeight) keywordResults.

(** The visits that concern the document [key]. *)
Definition occurrences (key : string) (l : list (Q * SearchResult))
    : list (Q * SearchResult) :=
  List.filter (fun wr => String.eqb (documentId (snd wr)) key) l.

(** What one visit makes of the entry of its document. *)
Definition fused (weight : Q) (existing : option SearchResult)
    (r : SearchResult) : SearchResult :=
  match existing with
  | Some e =>
      set_type hybrid
        (set_score (Qmax (relevanceScore e) (relevanceScore r * weight)) e)
  | None => set_score (relevanceScore r * weight) r
  end.

Definition fuseStep (existing : option SearchResult) (wr : Q * SearchResult)
    : option SearchResult :=
  Some (fused (fst wr) existing (snd wr)).

Definition mergeStep (m : ResultMap) (wr : Q * SearchResult) : ResultMap :=
  mergeResult (fst wr) m (snd wr).

(** No entry of the vector side and none of the keyword index belongs to
    the document [id]. *)
Definition purged (s : SearchService) (id : string) : Prop :=
  (id ∉ documentIds s) /\
  (match bm25Index s with
   | Some index => id ∉ map snd index
   | None => True
   end).

(** The vector side is aligned: label [i] of the index is the vector
    [embeddings[i]] of the document [documentIds[i]]. *)
Definition aligned (s : SearchService) : Prop :=
  length (documentIds s) = length (embeddings s) /\
  (match faissIndex s with
   | Some index => stored index = embeddings s
   | None => True
   end).


(** The results of the indexes for a query, before threshold and
    highlights: what the first step of [search] computes when no call
    throws. *)
Definition candidates (W : World) (s : SearchService) (query : text)
    (o : SearchOptions) : list SearchResult :=
  let orEmpty (c : result (list SearchResult)) :=
    match c with Ok l => l | Throw _ => [] end in
  if useHybridOf o then
    combineSearchResults
      (orEmpty (semanticSearch W s query (limitOf o * 2)))
      (orEmpty (keywordSearch W s query (limitOf o * 2)))
      (limitOf o)
  else orEmpty (semanticSearch W s query (limitOf o)).

(** Where a result of a query can come from: the [documents] map. *)
Definition stored_in (s : SearchService) (r : SearchResult) : Prop :=
  is_Some (documents s !! documentId r).

(** [r] is the candidate [c], possibly with highlights attached. *)
Definition decorates (r c : SearchResult) : Prop :=
  documentId r = documentId c /\
  relevanceScore r = relevanceScore c /\
  searchType r = searchType c.

(** What [search] attaches to a kept candidate when every query word is too
    short to be looked for. *)
Definition withoutMatches (o : SearchOptions) (r : SearchResult)
    : SearchResult :=
  if includeHighlightsOf o then set_highlights [] r else r.

(** Descending order of score. *)
Definition ranks_before (a b : SearchResult) : Prop :=
  (relevanceScore b <= relevanceScore a)%Q.

(** Sample data: a document of one chunk, whose vector is the first unit
    vector of dimension 1536, in an index that was empty. *)
Definition unitVector (first : Q) : vector := first :: repeat 0%Q 1535.

Definition doc1 : Document :=
  mkDocument "d1" (of_string "Fox")
             (of_string "The quick brown fox. The fox jumps.") [] []
             "ready" [mkEmbedding "d1_0" (unitVector 1)] 0 0.

Definition emptyIndexes : SearchService :=
  mkService (Some (mkIndex 1536 [])) (Some []) ∅ [] [] true.

Definition indexed1 : SearchService := addDocumentToIndex emptyIndexes doc1.

(** A world whose random source yields [randoms] and then 1/2 for ever
    (a component of the query embedding is the draw less 1/2), whose keyword
    index answers [kwHits], whose store holds [doc1] alone. *)
Definition sampleWorld (randoms : list Q) (kwHits : list (string * Q))
    : World :=
  mkWorld (fun _ i => nth i randoms (1 # 2)%Q)
          (fun id => Ok (if String.eqb id "d1" then Some doc1 else None))
          (Ok [doc1]) (Ok [])
          (fun _ _ _ => Ok kwHits)
          literalEngine.

Definition doc2 : Document :=
  mkDocument "d2" (of_string "Dog") (of_string "A lazy dog sleeps.") [] []
             "ready" [mkEmbedding "d2_0" (unitVector (-1))] 0 0.

Definition indexed2 : SearchService := addDocumentToIndex indexed1 doc2.

(** The vectors of a document that [addDocumentToIndex] hands to the
    vector index: the non-empty ones. *)
Definition vectorsOf (d : Document) : list vector :=
  List.filter (fun v => (0 <? length v)%nat) (map e_vector (d_embeddings d)).

(** The number of vectors that the index holds ([ntotal()]), 0 without an
    index. *)
Definition vectorCount (s : SearchService) : nat :=
  match faissIndex s with
  | Some index => ntotal index
  | None => O
  end.

(** From [s] to [s'] the vector side has only grown at its end. *)
Definition grows (s s' : SearchService) : Prop :=
  documentIds s `prefix_of` documentIds s' /\
  embeddings s `prefix_of` embeddings s' /\
  (vectorCount s <= vectorCount s')%nat.

(** A world in which every collaborator that can throw does. *)
Definition failingWorld : World :=
  mkWorld (fun _ _ => 0%Q)
          (fun _ => Throw (LibraryError "store unavailable"))
          (Throw (LibraryError "store unavailable"))
          (Throw TypeError)
          (fun _ _ _ => Throw (LibraryError "index unavailable"))
          (fun _ _ => Throw SyntaxError).

End Spec.

(** * Properties *)

(** ** JavaScript strings *)

Module JsStringFacts.

Lemma trimStart_length (s : text) : (length (trimStart s) <= length s)%nat.
Proof.
  induction s as [|c r IH]; simpl; [lia|].
  destruct (is_ws c); simpl; lia.
Qed.

Lemma trim_length (s : text) : (length (trim s) <= length s)%nat.
Proof.
  unfold trim, trimEnd. rewrite length_rev.
  etransitivity; [apply trimStart_length|].
  rewrite length_rev. apply trimStart_length.
Qed.

Lemma trimStart_blank (s : text) : forallb is_ws s = true -> trimStart s = [].
Proof.
  induction s as [|c r IH]; simpl; [done|].
  intros [Hc Hr]%andb_prop. rewrite Hc. auto.
Qed.

Lemma trimStart_head (s : text) c r : trimStart s = c :: r -> is_ws c = false.
Proof.
  induction s as [|d s IH]; simpl; [done|].
  destruct (is_ws d) eqn:Hd; [auto|]. intros [= <- <-]. done.
Qed.

Lemma substring_length (s : text) (a b : Z) :
  0 <= a <= b ->
  Z.of_nat (length (substring s a b)) <= b - a.
Proof.
  intros Hab. unfold substring, clamp.
  rewrite length_take, length_drop. lia.
Qed.

Lemma substring_blank (s : text) (a b : Z) :
  forallb is_ws s = true -> forallb is_ws (substring s a b) = true.
Proof.
  intros Hs. unfold substring.
  apply forallb_forall. intros c Hc.
  rewrite forallb_forall in Hs. apply Hs.
  apply list_elem_of_In in Hc. apply list_elem_of_In.
  apply elem_of_take in Hc as (i & Hc & _).
  rewrite lookup_drop in Hc. eapply list_elem_of_lookup_2, Hc.
Qed.

Lemma trim_blank (s : text) : forallb is_ws s = true -> trim s = [].
Proof.
  intros Hs. unfold trim. rewrite (trimStart_blank s Hs). reflexivity.
Qed.

Lemma lastIndexOf_from_le (pat s : text) (k : nat) :
  -1 <= lastIndexOf_from pat s k <= Z.of_nat k.
Proof.
  induction k as [|k IH]; simpl; destruct (occurs_at pat s _); lia.
Qed.

Lemma lastIndexOf_le (pat s : text) (pos : Z) :
  0 <= pos ->
  -1 <= lastIndexOf pat s pos <= Z.min pos (Z.of_nat (length s)).
Proof.
  intros Hpos. unfold lastIndexOf.
  pose proof (lastIndexOf_from_le pat s (clamp s pos)) as H.
  unfold clamp in *. lia.
Qed.

Lemma trimStart_nil_blank (s : text) :
  trimStart s = [] -> forallb is_ws s = true.
Proof.
  induction s as [|c r IH]; simpl; [done|].
  destruct (is_ws c); [auto|done].
Qed.

(** A text that trims to nothing has no character other than white
    space. *)
Lemma trim_nil_blank (s : text) : trim s = [] -> forallb is_ws s = true.
Proof.
  unfold trim, trimEnd. intros H.
  apply (f_equal (@rev ascii)) in H. rewrite rev_involutive in H. simpl in H.
  apply trimStart_nil_blank in H.
  destruct (trimStart s) as [|c r] eqn:Hstart; [by apply trimStart_nil_blank|].
  apply trimStart_head in Hstart.
  rewrite forallb_forall in H. specialize (H c).
  rewrite H in Hstart; [done|]. apply in_rev. rewrite rev_involutive.
  by left.
Qed.

(** The character at an index inside the range is in the slice. *)
Lemma substring_elem (s : text) (a b : Z) (p : nat) (c : ascii) :
  0 <= a <= Z.of_nat p -> Z.of_nat p < b <= Z.of_nat (length s) ->
  s !! p = Some c -> c ∈ substring s a b.
Proof.
  intros Ha Hb Hp. unfold substring, clamp.
  apply list_elem_of_lookup. exists (p - Z.to_nat a)%nat.
  rewrite lookup_take_lt by lia. rewrite lookup_drop.
  replace (_ + _)%nat with p by lia. done.
Qed.

End JsStringFacts.

(** ** The chunker *)

Module ChunkerFacts.
Import Chunker JsStringFacts Spec.

Lemma nextStart_gt (cfg : Config) (t : text) (start : Z) :
  start < nextStart cfg t start.
Proof. unfold nextStart. lia. Qed.

Lemma pushChunk_app (cfg : Config) (t : text) (start : Z) (chunks : list Chunk) :
  pushChunk cfg t start chunks = chunks ++ pushChunk cfg t start [].
Proof.
  unfold pushChunk. destruct (0 <? length _)%nat; simpl; [done|].
  by rewrite app_nil_r.
Qed.

Lemma pushChunk_length (cfg : Config) (t : text) (start : Z) :
  (length (pushChunk cfg t start []) <= 1)%nat.
Proof. unfold pushChunk. destruct (0 <? length _)%nat; simpl; lia. Qed.

(** The loop leaves once the fuel covers the characters that remain, and
    then it has pushed at most one chunk for each of them. *)
Lemma splitLoop_total (cfg : Config) (t : text) (fuel : nat) :
  forall (start : Z) (chunks : list Chunk),
    Z.of_nat (length t) - start <= Z.of_nat fuel ->
    exists out,
      splitLoop cfg t fuel start chunks = Some out /\
      Z.of_nat (length out) <=
        Z.of_nat (length chunks) + Z.max 0 (Z.of_nat (length t) - start).
Proof.
  induction fuel as [|fuel IH]; intros start chunks Hfuel; simpl.
  - destruct (Z.ltb_spec start (Z.of_nat (length t))); [lia|].
    exists chunks. split; [done|lia].
  - destruct (Z.ltb_spec start (Z.of_nat (length t))) as [Hlt|Hge].
    + pose proof (nextStart_gt cfg t start) as Hnext.
      destruct (IH (nextStart cfg t start) (pushChunk cfg t start chunks))
        as (out & Hout & Hlen); [lia|].
      exists out. split; [done|].
      rewrite pushChunk_app, length_app in Hlen.
      pose proof (pushChunk_length cfg t start). lia.
    + exists chunks. split; [done|lia].
Qed.

(** What the loop returns is the chunks it was given, followed by chunks
    pushed at window starts from [start] on, in increasing order of start. *)
Lemma splitLoop_pushed (P : Chunk -> Prop) (cfg : Config) (t : text)
    (lo : Z) :
  (forall s, lo <= s < Z.of_nat (length t) -> Forall P (pushChunk cfg t s [])) ->
  forall (fuel : nat) (start : Z) (chunks out : list Chunk),
    lo <= start ->
    splitLoop cfg t fuel start chunks = Some out ->
    exists pushed,
      out = chunks ++ pushed /\
      Forall P pushed /\
      Forall (fun c => start <= startIndex c) pushed /\
      StronglySorted (fun a b => startIndex a < startIndex b) pushed.
Proof.
  intros HP fuel. induction fuel as [|fuel IH]; intros start chunks out Hlo; simpl.
  - destruct (Z.ltb_spec start (Z.of_nat (length t))); [done|].
    intros [= <-]. exists []. rewrite app_nil_r. repeat split; constructor.
  - destruct (Z.ltb_spec start (Z.of_nat (length t))) as [Hlt|Hge].
    + intros Hrun. pose proof (nextStart_gt cfg t start) as Hnext.
      apply IH in Hrun as (pushed & -> & HPp & Hge & Hsorted); [|lia].
      rewrite pushChunk_app, <- app_assoc.
      exists (pushChunk cfg t start [] ++ pushed).
      assert (Hhere : Forall (fun c => startIndex c = start)
                             (pushChunk cfg t start [])).
      { unfold pushChunk. destruct (0 <? length _)%nat; repeat constructor. }
      split; [done|]. split; [|split].
      * apply Forall_app. split; [apply HP; lia|done].
      * apply Forall_app. split.
        -- eapply Forall_impl; [apply Hhere|]. simpl. intros; lia.
        -- eapply Forall_impl; [apply Hge|]. simpl. intros; lia.
      * unfold pushChunk in *. destruct (0 <? length _)%nat; simpl; [|done].
        constructor; [done|].
        eapply Forall_impl; [apply Hge|]. simpl. intros; lia.
    + intros [= <-]. exists []. rewrite app_nil_r. repeat split; constructor.
Qed.

(** The window that starts inside the text ends after its start, inside the
    text, and at most one character past the raw boundary. *)
Lemma chunkEndAt_bounds (cfg : Config) (t : text) (start : Z) :
  1 <= chunkSize cfg ->
  0 <= start < Z.of_nat (length t) ->
  start < chunkEndAt cfg t start <= Z.of_nat (length t) /\
  chunkEndAt cfg t start <= start + chunkSize cfg + 1.
Proof.
  intros Hsize Hstart. unfold chunkEndAt.
  set (len := Z.of_nat (length t)).
  set (endIdx := Z.min (start + chunkSize cfg) len).
  destruct (Z.ltb_spec endIdx len) as [Hin|Hout]; [|subst endIdx; lia].
  pose proof (lastIndexOf_le dot t endIdx ltac:(subst endIdx; lia)) as Hs.
  pose proof (lastIndexOf_le paragraph_break t endIdx ltac:(subst endIdx; lia)) as Hp.
  fold len in Hs, Hp.
  destruct (Z.ltb_spec (2 * start + chunkSize cfg)
              (2 * Z.max (lastIndexOf dot t endIdx)
                         (lastIndexOf paragraph_break t endIdx)));
    subst endIdx; lia.
Qed.

Lemma pushChunk_blank (cfg : Config) (t : text) (start : Z) :
  forallb is_ws t = true -> pushChunk cfg t start [] = [].
Proof.
  intros Hblank. unfold pushChunk.
  rewrite (trim_blank _ (substring_blank t start _ Hblank)). reflexivity.
Qed.

Lemma pushChunk_well_formed (cfg : Config) (t : text) (start : Z) :
  1 <= chunkSize cfg ->
  0 <= start < Z.of_nat (length t) ->
  Forall (well_formed cfg t) (pushChunk cfg t start []).
Proof.
  intros Hsize Hstart.
  destruct (chunkEndAt_bounds cfg t start Hsize Hstart) as [Hend Hcut].
  unfold pushChunk.
  destruct (Nat.ltb_spec 0 (length (trim (substring t start (chunkEndAt cfg t start)))))
    as [Hlen|Hlen]; [|constructor].
  repeat constructor; simpl; try lia.
  pose proof (trim_length (substring t start (chunkEndAt cfg t start))).
  pose proof (substring_length t start (chunkEndAt cfg t start) ltac:(lia)).
  lia.
Qed.

(** C6. For every chunkSize >= 1 and overlap >= 0 (also overlap >= chunkSize)
    splitIntoChunks terminates on a text of length N and produces at most N
    chunks; the start of the window strictly increases at every iteration. *)
Theorem chunk_termination (cfg : Config) (t : text) :
  1 <= chunkSize cfg ->
  0 <= chunkOverlap cfg ->
  (forall start, start < nextStart cfg t start) /\
  exists chunks,
    splitIntoChunks cfg t = Some chunks /\ (length chunks <= length t)%nat.
Proof.
  intros _ _. split; [apply nextStart_gt|].
  destruct (splitLoop_total cfg t (length t) 0 []) as (out & Hout & Hlen); [lia|].
  exists out. split; [done|]. simpl in Hlen. lia.
Qed.

Lemma chunk_termination_witness :
  (1 <= chunkSize (mkConfig 3 7) /\ 0 <= chunkOverlap (mkConfig 3 7)) /\
  ((forall start,
      start < nextStart (mkConfig 3 7) (of_string "ab cd. ef") start) /\
   exists chunks,
     splitIntoChunks (mkConfig 3 7) (of_string "ab cd. ef") = Some chunks /\
     (length chunks <= length (of_string "ab cd. ef"))%nat).
Proof.
  split; [simpl; lia|].
  apply (chunk_termination (mkConfig 3 7) (of_string "ab cd. ef")); simpl; lia.
Defined.

(** C5, on the code: a text of five characters, far shorter than the chunk
    size of 1000, is cut into five chunks, one for each of its suffixes,
    because the next start falls back to [startIndex + 1] when the overlap
    exceeds the window. *)
Theorem short_text_suffix_chunks :
  splitIntoChunks defaultConfig (of_string "hello") =
  Some [ mkChunk (of_string "hello") 0 5; mkChunk (of_string "ello") 1 5;
         mkChunk (of_string "llo") 2 5; mkChunk (of_string "lo") 3 5;
         mkChunk (of_string "o") 4 5 ].
Proof. vm_compute. reflexivity. Qed.

(** C7, on the code: when the character just after the window is a full
    stop, the cut is moved one past the raw boundary and the chunk has
    chunkSize + 1 characters. For a thousand letters, a full stop and one
    more letter the first chunk spans [0, 1001) and its text has 1001
    characters, while chunkSize is 1000. *)
Theorem chunk_longer_than_chunkSize :
  firstChunkShape (splitIntoChunks defaultConfig long_sentence)
    = Some (0, 1001, 1001%nat) /\
  chunkSize defaultConfig = 1000.
Proof. split; [vm_compute; reflexivity|reflexivity]. Qed.

(** A text without a character other than white space (the empty text
    among them) yields no chunk. *)
Theorem blank_text_no_chunks (cfg : Config) (t : text) :
  forallb is_ws t = true -> splitIntoChunks cfg t = Some [].
Proof.
  intros Hblank.
  destruct (splitLoop_total cfg t (length t) 0 []) as (out & Hout & _); [lia|].
  unfold splitIntoChunks. rewrite Hout. f_equal.
  destruct (splitLoop_pushed (fun _ => False) cfg t 0) with
    (fuel := length t) (start := 0) (chunks := @nil Chunk) (out := out)
    as (pushed & -> & Hnone & _); try done.
  - intros s _. rewrite pushChunk_blank by done. constructor.
  - destruct pushed as [|c ?]; [done|]. by inversion Hnone.
Qed.

Lemma blank_text_no_chunks_witness :
  forallb is_ws (of_string "   ") = true /\
  splitIntoChunks defaultConfig (of_string "   ") = Some [].
Proof.
  split; [reflexivity|].
  apply (blank_text_no_chunks defaultConfig (of_string "   ")). reflexivity.
Defined.

(** Every chunk records offsets inside the text with
    startIndex < endIndex, its text is the trimmed slice at these offsets,
    is not empty, and has at most chunkSize + 1 characters. *)
Theorem chunks_well_formed (cfg : Config) (t : text) (chunks : list Chunk) :
  1 <= chunkSize cfg ->
  splitIntoChunks cfg t = Some chunks ->
  Forall (well_formed cfg t) chunks.
Proof.
  intros Hsize Hrun.
  destruct (splitLoop_pushed (well_formed cfg t) cfg t 0) with
    (fuel := length t) (start := 0) (chunks := @nil Chunk) (out := chunks)
    as (pushed & -> & Hwf & _); try done.
  intros s Hs. by apply pushChunk_well_formed.
Qed.

Lemma chunks_well_formed_witness :
  1 <= chunkSize (mkConfig 4 0) /\
  splitIntoChunks (mkConfig 4 0) (of_string "abcd.efgh") =
    Some [mkChunk (of_string "abcd.") 0 5; mkChunk (of_string "efgh") 5 9] /\
  Forall (well_formed (mkConfig 4 0) (of_string "abcd.efgh"))
         [mkChunk (of_string "abcd.") 0 5; mkChunk (of_string "efgh") 5 9].
Proof.
  split; [simpl; lia|]. split; [reflexivity|].
  apply (chunks_well_formed (mkConfig 4 0) (of_string "abcd.efgh"));
    [simpl; lia|reflexivity].
Defined.

(** The chunks come in document order: their start offsets strictly
    increase, so no two chunks start at the same place. *)
Theorem chunks_in_document_order (cfg : Config) (t : text) (chunks : list Chunk) :
  splitIntoChunks cfg t = Some chunks ->
  StronglySorted (fun a b => startIndex a < startIndex b) chunks.
Proof.
  intros Hrun.
  destruct (splitLoop_pushed (fun _ => True) cfg t 0) with
    (fuel := length t) (start := 0) (chunks := @nil Chunk) (out := chunks)
    as (pushed & -> & _ & _ & Hsorted); try done.
  intros s _. apply Forall_forall. done.
Qed.

Lemma chunks_in_document_order_witness :
  splitIntoChunks defaultConfig (of_string "hello") =
    Some [ mkChunk (of_string "hello") 0 5; mkChunk (of_string "ello") 1 5;
           mkChunk (of_string "llo") 2 5; mkChunk (of_string "lo") 3 5;
           mkChunk (of_string "o") 4 5 ] /\
  StronglySorted (fun a b => startIndex a < startIndex b)
    [ mkChunk (of_string "hello") 0 5; mkChunk (of_string "ello") 1 5;
      mkChunk (of_string "llo") 2 5; mkChunk (of_string "lo") 3 5;
      mkChunk (of_string "o") 4 5 ].
Proof.
  split; [vm_compute; reflexivity|].
  apply (chunks_in_document_order defaultConfig (of_string "hello")).
  vm_compute. reflexivity.
Defined.

(** A window that holds a character other than white space pushes its
    chunk. *)
Lemma pushChunk_covers (cfg : Config) (t : text) (start : Z) (p : nat)
    (c : ascii) :
  1 <= chunkSize cfg ->
  0 <= start <= Z.of_nat p -> Z.of_nat p < chunkEndAt cfg t start ->
  t !! p = Some c -> is_ws c = false ->
  pushChunk cfg t start [] =
    [mkChunk (trim (substring t start (chunkEndAt cfg t start))) start
             (chunkEndAt cfg t start)].
Proof.
  intros Hsize Hstart Hend Hp Hc.
  assert (Hlen : Z.of_nat p < Z.of_nat (length t)).
  { apply lookup_lt_Some in Hp. lia. }
  destruct (chunkEndAt_bounds cfg t start Hsize ltac:(lia)) as [[_ Hin] _].
  unfold pushChunk.
  destruct (Nat.ltb_spec 0 (length (trim (substring t start
              (chunkEndAt cfg t start))))) as [|Hnil]; [done|].
  exfalso.
  assert (Hblank : trim (substring t start (chunkEndAt cfg t start)) = []).
  { destruct (trim _); [done|simpl in Hnil; lia]. }
  apply trim_nil_blank in Hblank. rewrite forallb_forall in Hblank.
  specialize (Hblank c). rewrite Hblank in Hc; [done|].
  apply list_elem_of_In. apply (substring_elem t _ _ p); [lia|lia|done].
Qed.

Lemma splitLoop_covers (cfg : Config) (t : text) :
  1 <= chunkSize cfg -> 0 <= chunkOverlap cfg ->
  forall (fuel : nat) (start : Z) (chunks out : list Chunk),
    0 <= start ->
    splitLoop cfg t fuel start chunks = Some out ->
    (forall p c, Z.of_nat p < start -> t !! p = Some c -> is_ws c = false ->
                 exists ch, ch ∈ chunks /\ covers ch p) ->
    forall p c, t !! p = Some c -> is_ws c = false ->
                exists ch, ch ∈ out /\ covers ch p.
Proof.
  intros Hsize Hoverlap fuel.
  induction fuel as [|fuel IH]; intros start chunks out Hstart; simpl.
  - destruct (Z.ltb_spec start (Z.of_nat (length t))) as [|Hge]; [done|].
    intros [= <-] Hinv p c Hp Hc. apply (Hinv p c); [|done..].
    apply lookup_lt_Some in Hp. lia.
  - destruct (Z.ltb_spec start (Z.of_nat (length t))) as [Hlt|Hge].
    + intros Hrun Hinv. pose proof (nextStart_gt cfg t start) as Hnext.
      apply (IH (nextStart cfg t start) (pushChunk cfg t start chunks) out);
        [lia|exact Hrun|].
      intros p c Hp Hlook Hc. rewrite pushChunk_app.
      destruct (Z.lt_ge_cases (Z.of_nat p) start) as [Hold|Hnew].
      * destruct (Hinv p c Hold Hlook Hc) as (ch & Hch & Hcov).
        exists ch. split; [apply elem_of_app; by left|done].
      * destruct (chunkEndAt_bounds cfg t start Hsize ltac:(lia)) as [[Hend _] _].
        assert (Hin : Z.of_nat p < chunkEndAt cfg t start).
        { unfold nextStart in Hp. lia. }
        rewrite (pushChunk_covers cfg t start p c Hsize (conj Hstart Hnew) Hin
                   Hlook Hc).
        eexists. split; [apply elem_of_app; right; constructor|].
        unfold covers. simpl. split; [exact Hnew|exact Hin].
    + intros [= <-] Hinv p c Hp Hc. apply (Hinv p c); [|done..].
      apply lookup_lt_Some in Hp. lia.
Qed.

(** Chunk coverage: for chunkSize >= 1 and overlap >= 0, every character of
    the text that is not white space lies in the range
    [startIndex, endIndex) of some chunk. *)
Theorem chunks_cover_text (cfg : Config) (t : text) (chunks : list Chunk)
    (p : nat) (c : ascii) :
  1 <= chunkSize cfg -> 0 <= chunkOverlap cfg ->
  splitIntoChunks cfg t = Some chunks ->
  t !! p = Some c -> is_ws c = false ->
  exists ch, ch ∈ chunks /\ covers ch p.
Proof.
  intros Hsize Hoverlap Hrun Hp Hc.
  apply (splitLoop_covers cfg t Hsize Hoverlap (length t) 0 [] chunks
           ltac:(lia) Hrun) with (c := c); [|done..].
  intros q d Hq. lia.
Qed.

Lemma chunks_cover_text_witness :
  let t := of_string "ab cd. ef" in
  let chunks := [mkChunk (of_string "ab") 0 3; mkChunk (of_string "b c") 1 4;
                 mkChunk (of_string "cd.") 2 6; mkChunk (of_string "cd.") 3 6;
                 mkChunk (of_string "d.") 4 7; mkChunk (of_string ". e") 5 8;
                 mkChunk (of_string "ef") 6 9; mkChunk (of_string "ef") 7 9;
                 mkChunk (of_string "f") 8 9] in
  (1 <= chunkSize (mkConfig 3 7) /\ 0 <= chunkOverlap (mkConfig 3 7) /\
   splitIntoChunks (mkConfig 3 7) t = Some chunks /\
   t !! 4%nat = Some "d"%char /\ is_ws "d"%char = false) /\
  exists ch, ch ∈ chunks /\ covers ch 4.
Proof.
  intros t chunks.
  assert (H1 : 1 <= chunkSize (mkConfig 3 7)) by (simpl; lia).
  assert (H2 : 0 <= chunkOverlap (mkConfig 3 7)) by (simpl; lia).
  assert (H3 : splitIntoChunks (mkConfig 3 7) t = Some chunks)
    by (vm_compute; reflexivity).
  assert (H4 : t !! 4%nat = Some "d"%char) by reflexivity.
  assert (H5 : is_ws "d"%char = false) by reflexivity.
  split; [exact (conj H1 (conj H2 (conj H3 (conj H4 H5))))|].
  exact (chunks_cover_text (mkConfig 3 7) t chunks 4 "d"%char H1 H2 H3 H4 H5).
Defined.

End ChunkerFacts.

(** ** The stable sort *)

Section JsSortFacts.
Context {A : Type} (after : A -> A -> bool) (R : A -> A -> Prop).
Hypothesis R_trans : forall x y z, R x y -> R y z -> R x z.
Hypothesis after_true : forall x y, after x y = true -> R y x.
Hypothesis after_false : forall x y, after x y = false -> R x y.

Lemma insertSorted_perm (x : A) (l : list A) :
  Permutation (insertSorted after x l) (x :: l).
Proof using Type.
  induction l as [|y r IH]; simpl; [done|].
  destruct (after x y); [|done].
  rewrite IH. apply perm_swap.
Qed.

Lemma jsSort_perm (l : list A) : Permutation (jsSort after l) l.
Proof using Type.
  induction l as [|x l IH]; simpl; [done|].
  fold (jsSort after l). rewrite insertSorted_perm. by constructor.
Qed.

Lemma insertSorted_sorted (x : A) (l : list A) :
  StronglySorted R l -> StronglySorted R (insertSorted after x l).
Proof using R_trans after_true after_false.
  induction l as [|y r IH]; simpl; intros Hs.
  - repeat constructor.
  - inversion Hs as [|? ? Hr Hy]; subst.
    destruct (after x y) eqn:E.
    + constructor; [auto|].
      apply Forall_forall. intros z Hz.
      rewrite insertSorted_perm in Hz.
      apply elem_of_cons in Hz as [->|Hz]; [auto|].
      rewrite Forall_forall in Hy. by apply Hy.
    + constructor; [done|].
      constructor; [auto|].
      eapply Forall_impl; [apply Hy|]. simpl. eauto.
Qed.

Lemma jsSort_sorted (l : list A) : StronglySorted R (jsSort after l).
Proof using R_trans after_true after_false.
  induction l as [|x l IH]; simpl; [constructor|].
  by apply insertSorted_sorted.
Qed.

End JsSortFacts.

Section SortedFacts.
Context {A : Type} (R : A -> A -> Prop).

Lemma StronglySorted_snoc (l : list A) (x : A) :
  StronglySorted R l -> Forall (fun y => R y x) l ->
  StronglySorted R (l ++ [x]).
Proof.
  induction l as [|y l IH]; simpl; intros Hs Hall.
  - repeat constructor.
  - inversion Hs; subst. inversion Hall; subst.
    constructor; [auto|]. apply Forall_app. split; [done|]. by constructor.
Qed.

Lemma StronglySorted_sublist (l k : list A) :
  sublist k l -> StronglySorted R l -> StronglySorted R k.
Proof.
  intros Hsub. induction Hsub as [|x k l Hsub IH|x k l Hsub IH]; intros Hs.
  - constructor.
  - inversion Hs as [|? ? Hl Hx]; subst. constructor; [auto|].
    rewrite Forall_forall in *. intros y Hy. apply Hx.
    by eapply elem_of_sublist.
  - inversion Hs; subst. auto.
Qed.

Lemma StronglySorted_lookup (l : list A) (i j : nat) (a b : A) :
  StronglySorted R l -> (i < j)%nat ->
  l !! i = Some a -> l !! j = Some b -> R a b.
Proof.
  intros Hs. revert i j. induction Hs as [|x l Hl IH Hx]; intros i j Hij Hi Hj.
  - done.
  - destruct j as [|j]; [lia|]. simpl in Hj. destruct i as [|i].
    + injection Hi as <-. rewrite Forall_forall in Hx. apply Hx.
      by eapply list_elem_of_lookup_2.
    + simpl in Hi. eapply IH; [|done..]. lia.
Qed.

End SortedFacts.

Section SortedSplit.
Context {A : Type} (R : A -> A -> Prop).

Lemma StronglySorted_before (l r : list A) (x : A) :
  StronglySorted R (l ++ x :: r) -> Forall (fun y => R y x) l.
Proof.
  induction l as [|y l IH]; simpl; intros Hs; [constructor|].
  inversion Hs as [|? ? Hl Hy]; subst. constructor; [|auto].
  rewrite Forall_forall in Hy. apply Hy. set_solver.
Qed.

End SortedSplit.

(** ** The highlighter *)

Module HighlighterFacts.
Import Highlighter Spec.

Lemma sort_by_start (l : list Highlight) :
  StronglySorted starts_le (jsSort startsAfter l).
Proof.
  apply jsSort_sorted; unfold starts_le, startsAfter.
  - intros x y z. lia.
  - intros x y H. apply Z.ltb_lt in H. lia.
  - intros x y H. apply Z.ltb_ge in H. lia.
Qed.

(** In a list sorted by start, the test of the loop is exact: a highlight
    that passes it intersects none of the earlier ones. *)
Lemma free_is_apart (highlight existing : Highlight) :
  hl_start existing <= hl_start highlight ->
  hasOverlapWith highlight existing = false ->
  ordered_apart existing highlight.
Proof.
  intros Hle Hfree. split; [done|]. intros (x & Hx & Hy).
  unfold hasOverlapWith in Hfree.
  apply orb_false_iff in Hfree as [Hfree _].
  apply andb_false_iff in Hfree as [H|H];
    [apply Z.leb_gt in H|apply Z.ltb_ge in H]; lia.
Qed.

Lemma removeOverlaps_apart (rest : list Highlight) :
  forall filtered,
    StronglySorted starts_le (filtered ++ rest) ->
    StronglySorted ordered_apart filtered ->
    StronglySorted ordered_apart (fold_left keepIfFree rest filtered).
Proof.
  induction rest as [|h rest IH]; intros filtered Hsorted Hkept; simpl; [done|].
  apply IH; unfold keepIfFree;
    destruct (existsb (hasOverlapWith h) filtered) eqn:Hex; try done.
  - eapply StronglySorted_sublist; [|apply Hsorted].
    apply sublist_app; [done|]. by apply sublist_cons.
  - by rewrite <- app_assoc.
  - apply StronglySorted_snoc; [done|].
    pose proof (StronglySorted_before _ _ _ _ Hsorted) as Hbefore.
    rewrite Forall_forall in *. intros e He.
    apply free_is_apart; [by apply Hbefore|].
    destruct (hasOverlapWith h e) eqn:Hov; [|done].
    assert (existsb (hasOverlapWith h) filtered = true); [|congruence].
    apply existsb_exists. exists e. split; [|done]. by apply list_elem_of_In.
Qed.

(** C9. For every content and query, generateHighlights returns at most 10
    highlights, in ascending order of startIndex, and no two of them have
    intersecting ranges [startIndex, endIndex). This holds whatever the
    regular-expression engine reports as matches. *)
Theorem highlights_capped_sorted_disjoint (matchAll : RegExpEngine)
    (content query : text) (hs : list Highlight) :
  generateHighlights matchAll content query = Ok hs ->
  (length hs <= 10)%nat /\
  (forall i j a b, (i < j)%nat -> hs !! i = Some a -> hs !! j = Some b ->
                   hl_start a <= hl_start b) /\
  (forall i j a b, i <> j -> hs !! i = Some a -> hs !! j = Some b ->
                   ~ intersect a b).
Proof.
  unfold generateHighlights.
  destruct (collectMatches matchAll content _ []) as [collected|e]; simpl;
    [|done].
  intros [= <-].
  assert (Hall : StronglySorted ordered_apart
                   (take 10 (removeOverlaps (jsSort startsAfter collected)))).
  { eapply StronglySorted_sublist; [apply sublist_take|].
    apply removeOverlaps_apart; [|constructor]. apply sort_by_start. }
  split; [rewrite length_take; lia|]. split.
  - intros i j a b Hij Ha Hb.
    by destruct (StronglySorted_lookup _ _ _ _ _ _ Hall Hij Ha Hb).
  - intros i j a b Hij Ha Hb.
    destruct (Nat.lt_total i j) as [Hlt|[->|Hlt]]; [|done|].
    + by destruct (StronglySorted_lookup _ _ _ _ _ _ Hall Hlt Ha Hb).
    + destruct (StronglySorted_lookup _ _ _ _ _ _ Hall Hlt Hb Ha) as [_ Hn].
      intros (x & Hx & Hy). apply Hn. by exists x.
Qed.

Lemma highlights_capped_sorted_disjoint_witness :
  let content := of_string "The quick brown fox. The fox jumps." in
  let query := of_string "fox the ox" in
  let hs := [ mkHighlight (of_string "The") 0 3 "keyword";
              mkHighlight (of_string "fox") 16 19 "keyword";
              mkHighlight (of_string "The") 21 24 "keyword";
              mkHighlight (of_string "fox") 25 28 "keyword" ] in
  generateHighlights literalEngine content query = Ok hs /\
  ((length hs <= 10)%nat /\
   (forall i j a b, (i < j)%nat -> hs !! i = Some a -> hs !! j = Some b ->
                    hl_start a <= hl_start b) /\
   (forall i j a b, i <> j -> hs !! i = Some a -> hs !! j = Some b ->
                    ~ intersect a b)).
Proof.
  intros content query hs. split; [vm_compute; reflexivity|].
  apply (highlights_capped_sorted_disjoint literalEngine content query hs).
  vm_compute. reflexivity.
Defined.

Lemma collectMatches_sound (matchAll : RegExpEngine) (content : text)
    (words : list text) :
  forall acc out,
    collectMatches matchAll content words acc = Ok out ->
    forall h, h ∈ out ->
      h ∈ acc \/
      exists word ms m,
        word ∈ words /\ (2 < length word)%nat /\
        matchAll word content = Ok ms /\ m ∈ ms /\ h = highlightOf m.
Proof.
  induction words as [|w words IH]; simpl; intros acc out Hrun h Hh.
  - injection Hrun as <-. by left.
  - destruct (Nat.ltb_spec 2 (length w)) as [Hlong|Hshort].
    + destruct (matchAll w content) as [ms|e] eqn:Hms; simpl in Hrun; [|done].
      destruct (IH _ _ Hrun h Hh) as [Hacc|(word & ms' & m & Hw & ?)].
      * apply elem_of_app in Hacc as [Hacc|Hnew]; [by left|]. right.
        apply list_elem_of_fmap in Hnew as (m & -> & Hm).
        exists w, ms, m. split; [constructor|done].
      * right. exists word, ms', m. split; [by apply elem_of_cons; right|done].
    + destruct (IH _ _ Hrun h Hh) as [Hacc|(word & ms' & m & Hw & ?)];
        [by left|].
      right. exists word, ms', m. split; [by apply elem_of_cons; right|done].
Qed.

Lemma removeOverlaps_subset (rest : list Highlight) :
  forall filtered h,
    h ∈ fold_left keepIfFree rest filtered -> h ∈ filtered \/ h ∈ rest.
Proof.
  induction rest as [|x rest IH]; simpl; intros filtered h Hh; [by left|].
  apply IH in Hh as [Hh|Hh]; [|right; by apply elem_of_cons; right].
  unfold keepIfFree in Hh. destruct (existsb _ filtered); [by left|].
  apply elem_of_app in Hh as [Hh|Hh]; [by left|].
  apply list_elem_of_singleton in Hh as ->. right. constructor.
Qed.

(** Every highlight returned is a match that the engine reported for a
    word of the lower-cased query longer than two characters: its text is
    the matched text and its range starts at the reported index and is as
    long as the match. *)
Theorem highlights_are_reported_matches (matchAll : RegExpEngine)
    (content query : text) (hs : list Highlight) (h : Highlight) :
  generateHighlights matchAll content query = Ok hs ->
  h ∈ hs ->
  exists word ms m,
    word ∈ split_ws (toLowerCase query) /\ (2 < length word)%nat /\
    matchAll word content = Ok ms /\ m ∈ ms /\
    hl_text h = m_text m /\ hl_start h = m_index m /\
    hl_end h = m_index m + Z.of_nat (length (m_text m)).
Proof.
  unfold generateHighlights.
  destruct (collectMatches matchAll content _ []) as [collected|e] eqn:Hc;
    simpl; [|done].
  intros [= <-] Hh.
  apply elem_of_sublist
    with (l2 := removeOverlaps (jsSort startsAfter collected)) in Hh;
    [|apply sublist_take].
  apply removeOverlaps_subset in Hh as [Hh|Hh]; [by apply elem_of_nil in Hh|].
  rewrite (jsSort_perm startsAfter) in Hh.
  destruct (collectMatches_sound _ _ _ _ _ Hc h Hh)
    as [Hnil|(word & ms & m & Hw & Hlong & Hms & Hm & ->)];
    [by apply elem_of_nil in Hnil|].
  by exists word, ms, m.
Qed.

Lemma highlights_are_reported_matches_witness :
  let content := of_string "The quick brown fox. The fox jumps." in
  let query := of_string "FOX" in
  let h := mkHighlight (of_string "fox") 25 28 "keyword" in
  (generateHighlights literalEngine content query
     = Ok [mkHighlight (of_string "fox") 16 19 "keyword"; h] /\
   h ∈ [mkHighlight (of_string "fox") 16 19 "keyword"; h]) /\
  exists word ms m,
    word ∈ split_ws (toLowerCase query) /\ (2 < length word)%nat /\
    literalEngine word content = Ok ms /\ m ∈ ms /\
    hl_text h = m_text m /\ hl_start h = m_index m /\
    hl_end h = m_index m + Z.of_nat (length (m_text m)).
Proof.
  intros content query h.
  assert (H1 : generateHighlights literalEngine content query
               = Ok [mkHighlight (of_string "fox") 16 19 "keyword"; h])
    by (vm_compute; reflexivity).
  assert (H2 : h ∈ [mkHighlight (of_string "fox") 16 19 "keyword"; h])
    by (do 2 constructor).
  split; [done|].
  exact (highlights_are_reported_matches literalEngine content query _ h H1 H2).
Defined.

Lemma ws_lower (c : ascii) : is_ws c = true -> lower_char c = c.
Proof.
  destruct c as [[] [] [] [] [] [] [] []]; vm_compute; intros H;
    first [reflexivity | discriminate H].
Qed.

Lemma toLowerCase_blank (q : text) :
  forallb is_ws q = true -> toLowerCase q = q.
Proof.
  induction q as [|c q IH]; simpl; [done|].
  intros [Hc Hq]%andb_prop. by rewrite ws_lower, IH.
Qed.

Lemma split_blank (cur : text) (in_run : bool) (s : text) :
  forallb is_ws s = true ->
  Forall (fun w => w = rev cur \/ w = []) (split_runs_aux is_ws cur in_run s).
Proof.
  revert cur in_run. induction s as [|c s IH]; simpl; intros cur in_run.
  - intros _. repeat constructor.
  - intros [Hc Hs]%andb_prop. rewrite Hc. destruct in_run.
    + by apply IH.
    + constructor; [by left|].
      eapply Forall_impl; [by apply (IH [] true)|]. simpl. tauto.
Qed.

(** The words of a blank query are all empty. *)
Lemma blank_query_words (q : text) :
  forallb is_ws q = true ->
  Forall (fun w => (length w <= 2)%nat) (split_ws (toLowerCase q)).
Proof.
  intros Hq. rewrite toLowerCase_blank by done.
  eapply Forall_impl; [by apply (split_blank [] false)|].
  simpl. intros w [->| ->]; simpl; lia.
Qed.

Lemma short_words_collect (matchAll : RegExpEngine) (content : text)
    (words : list text) (acc : list Highlight) :
  Forall (fun w => (length w <= 2)%nat) words ->
  collectMatches matchAll content words acc = Ok acc.
Proof.
  induction 1 as [|w words Hw _ IH]; simpl; [done|].
  destruct (Nat.ltb_spec 2 (length w)); [lia|done].
Qed.

Lemma short_words_collect_blank (matchAll : RegExpEngine)
    (content query : text) :
  forallb is_ws query = true ->
  generateHighlights matchAll content query = Ok [].
Proof.
  intros Hblank. unfold generateHighlights.
  by rewrite short_words_collect by (by apply blank_query_words).
Qed.

(** A query without a word of three characters or more yields no highlight
    and does not reach the regular-expression engine, so it cannot throw
    either. *)
Theorem short_words_no_highlights (matchAll : RegExpEngine)
    (content query : text) :
  Forall (fun w => (length w <= 2)%nat) (split_ws (toLowerCase query)) ->
  generateHighlights matchAll content query = Ok [].
Proof.
  intros Hshort. unfold generateHighlights.
  by rewrite short_words_collect.
Qed.

Lemma short_words_no_highlights_witness :
  Forall (fun w => (length w <= 2)%nat)
         (split_ws (toLowerCase (of_string "to be or (("))) /\
  generateHighlights (fun _ _ => Throw SyntaxError)
                     (of_string "To be, or not to be") (of_string "to be or ((")
  = Ok [].
Proof.
  split; [repeat constructor|].
  apply (short_words_no_highlights (fun _ _ => Throw SyntaxError)).
  repeat constructor.
Defined.

End HighlighterFacts.

(** ** Score fusion *)

Module FusionFacts.
Import Fusion Spec.
Local Open Scope Q_scope.

Lemma Qmax_cases (x y : Q) : Qmax x y = x \/ Qmax x y = y.
Proof. unfold Qmax, GenericMinMax.gmax. destruct (x ?= y); auto. Qed.

Lemma mapGet_app (k : string) (m : ResultMap) (k' : string) (v : SearchResult) :
  mapGet k (m ++ [(k', v)]) =
  match mapGet k m with
  | Some x => Some x
  | None => if String.eqb k' k then Some v else None
  end.
Proof.
  induction m as [|[k0 v0] m IH]; simpl; [done|].
  destruct (String.eqb k0 k); done.
Qed.

Lemma mapGet_update (k k' : string) (f : SearchResult -> SearchResult)
    (m : ResultMap) :
  mapGet k (mapUpdate k' f m) =
  if String.eqb k' k then f <$> mapGet k m else mapGet k m.
Proof.
  induction m as [|[k0 v0] m IH]; simpl.
  - by destruct (String.eqb k' k).
  - destruct (String.eqb_spec k0 k') as [->|Hne]; simpl.
    + destruct (String.eqb_spec k' k) as [->|Hne']; [done|].
      destruct (String.eqb k' k); done.
    + destruct (String.eqb_spec k0 k) as [->|Hne0]; simpl.
      * destruct (String.eqb_spec k' k) as [->|?]; [done|done].
      * apply IH.
Qed.

Lemma mapUpdate_keys (k : string) (f : SearchResult -> SearchResult)
    (m : ResultMap) :
  map fst (mapUpdate k f m) = map fst m.
Proof.
  induction m as [|[k0 v0] m IH]; simpl; [done|].
  destruct (String.eqb k0 k); simpl; congruence.
Qed.

Lemma mapGet_None (k : string) (m : ResultMap) :
  mapGet k m = None <-> k ∉ map fst m.
Proof.
  induction m as [|[k0 v0] m IH]; simpl.
  - split; [intros _; apply not_elem_of_nil|done].
  - rewrite not_elem_of_cons.
    destruct (String.eqb_spec k0 k) as [->|Hne]; [split; [done|tauto]|].
    rewrite IH. split; [auto|tauto].
Qed.

Lemma mapGet_elem (k : string) (v : SearchResult) (m : ResultMap) :
  NoDup (map fst m) -> (k, v) ∈ m -> mapGet k m = Some v.
Proof.
  induction m as [|[k0 v0] m IH]; simpl; intros Hnd Hin.
  - by apply elem_of_nil in Hin.
  - apply NoDup_cons in Hnd as [Hk0 Hnd].
    apply elem_of_cons in Hin as [[= -> ->]|Hin].
    + by rewrite String.eqb_refl.
    + destruct (String.eqb_spec k0 k) as [->|Hne]; [|auto].
      exfalso. apply Hk0. apply list_elem_of_fmap. by exists (k, v).
Qed.

(** The entry of [k] after one visit. *)
Lemma mapGet_mergeResult (w : Q) (m : ResultMap) (r : SearchResult)
    (k : string) :
  mapGet k (mergeResult w m r) =
  if String.eqb (documentId r) k then Some (fused w (mapGet k m) r)
  else mapGet k m.
Proof.
  unfold mergeResult.
  destruct (mapGet (documentId r) m) as [e|] eqn:He.
  - rewrite mapGet_update.
    destruct (String.eqb_spec (documentId r) k) as [<-|Hne]; [|done].
    by rewrite He.
  - rewrite mapGet_app.
    destruct (String.eqb_spec (documentId r) k) as [<-|Hne].
    + by rewrite He.
    + by destruct (mapGet k m).
Qed.

Lemma mergeResult_keys (w : Q) (m : ResultMap) (r : SearchResult) :
  NoDup (map fst m) -> NoDup (map fst (mergeResult w m r)).
Proof.
  intros Hnd. unfold mergeResult.
  destruct (mapGet (documentId r) m) as [e|] eqn:He.
  - by rewrite mapUpdate_keys.
  - rewrite map_app. simpl. apply NoDup_app. split; [done|]. split.
    + intros x Hx Hx'. apply list_elem_of_singleton in Hx'. subst x.
      by apply mapGet_None in He.
    + apply NoDup_singleton.
Qed.

Lemma mergeAll_fold (semanticResults keywordResults : list SearchResult) :
  mergeAll semanticResults keywordResults =
  fold_left mergeStep (weighted semanticResults keywordResults) [].
Proof.
  unfold mergeAll, weighted. rewrite fold_left_app.
  assert (H : forall w l m,
             fold_left mergeStep (map (pair w) l) m =
             fold_left (mergeResult w) l m).
  { intros w l. induction l as [|x l IH]; intros m; simpl; [done|]. apply IH. }
  by rewrite !H.
Qed.

Lemma fold_mergeStep_keys (l : list (Q * SearchResult)) (m : ResultMap) :
  NoDup (map fst m) -> NoDup (map fst (fold_left mergeStep l m)).
Proof.
  revert m. induction l as [|x l IH]; intros m Hnd; simpl; [done|].
  apply IH. by apply mergeResult_keys.
Qed.

(** The merge, seen from one document: its entry is the fold of the visits
    that concern it, in order. *)
Lemma mapGet_fold (k : string) (l : list (Q * SearchResult)) (m : ResultMap) :
  mapGet k (fold_left mergeStep l m) =
  fold_left fuseStep (occurrences k l) (mapGet k m).
Proof.
  revert m. induction l as [|[w r] l IH]; intros m; simpl; [done|].
  rewrite IH. unfold mergeStep, occurrences. simpl.
  rewrite mapGet_mergeResult.
  destruct (String.eqb (documentId r) k); done.
Qed.

Lemma occurrences_app (k : string) (l1 l2 : list (Q * SearchResult)) :
  occurrences k (l1 ++ l2) = occurrences k l1 ++ occurrences k l2.
Proof. unfold occurrences. apply List.filter_app. Qed.

Lemma elem_of_occurrences (k : string) (l : list (Q * SearchResult))
    (w : Q) (r : SearchResult) :
  (w, r) ∈ occurrences k l <-> (w, r) ∈ l /\ documentId r = k.
Proof.
  unfold occurrences. rewrite !list_elem_of_In, List.filter_In. simpl.
  destruct (String.eqb_spec (documentId r) k); split; intros []; done.
Qed.

Lemma elem_of_weighted (sem kw : list SearchResult) (w : Q) (r : SearchResult) :
  (w, r) ∈ weighted sem kw <->
  (w = semanticWeight /\ r ∈ sem) \/ (w = keywordWeight /\ r ∈ kw).
Proof.
  unfold weighted. rewrite elem_of_app, !list_elem_of_fmap. split.
  - intros [(x & [= -> ->] & Hx)|(x & [= -> ->] & Hx)]; auto.
  - intros [[-> Hr]|[-> Hr]]; [left|right]; by exists r.
Qed.

(** What the visits of one document leave: nothing when there is none; else
    an entry of that document whose score is the largest weighted score of
    the visits, attained by one of them, and whose type is that of the only
    visit, or [hybrid] as soon as there are two. *)
Lemma fuse_fold_spec (k : string) (occ : list (Q * SearchResult)) :
  Forall (fun wr => documentId (snd wr) = k) occ ->
  match fold_left fuseStep occ None with
  | None => occ = []
  | Some v =>
      documentId v = k /\
      (forall w r, (w, r) ∈ occ -> relevanceScore r * w <= relevanceScore v) /\
      (exists w r, (w, r) ∈ occ /\ relevanceScore v = relevanceScore r * w) /\
      (forall w r, occ = [(w, r)] -> searchType v = searchType r) /\
      ((2 <= length occ)%nat -> searchType v = hybrid)
  end.
Proof.
  induction occ as [|[w r] occ IH] using rev_ind; intros Hall; simpl; [done|].
  apply Forall_app in Hall as [Hocc Hr].
  apply Forall_cons in Hr as [Hr _]. simpl in Hr.
  rewrite fold_left_app. simpl. specialize (IH Hocc).
  destruct (fold_left fuseStep occ None) as [e|]; simpl.
  - destruct IH as (Hk & Hbound & (w0 & r0 & Hin0 & Heq0) & _ & _).
    refine (conj _ (conj _ (conj _ (conj _ _)))).
    + done.
    + intros w' r' [Hin|Hin]%elem_of_app.
      * eapply Qle_trans; [by apply Hbound|]. apply Q.le_max_l.
      * apply list_elem_of_singleton in Hin as [= -> ->]. apply Q.le_max_r.
    + destruct (Qmax_cases (relevanceScore e) (relevanceScore r * w)) as [->| ->].
      * exists w0, r0. split; [apply elem_of_app; by left|done].
      * exists w, r. split; [apply elem_of_app; right; by constructor|done].
    + intros w' r' Heq. apply (f_equal length) in Heq.
      rewrite length_app in Heq. simpl in Heq.
      destruct occ; simpl in *; [|lia]. by apply elem_of_nil in Hin0.
    + done.
  - subst occ. simpl. refine (conj _ (conj _ (conj _ (conj _ _)))).
    + done.
    + intros w' r' Hin. apply list_elem_of_singleton in Hin as [= -> ->].
      apply Qle_refl.
    + exists w, r. split; [by constructor|done].
    + by intros w' r' [= -> ->].
    + simpl. lia.
Qed.

(** Every result of [combineSearchResults] is the entry of its document in
    the merged map. *)
Lemma combine_result_entry (sem kw : list SearchResult) (limit : nat)
    (r : SearchResult) :
  r ∈ combineSearchResults sem kw limit ->
  exists k,
    fold_left fuseStep (occurrences k (weighted sem kw)) None = Some r.
Proof.
  unfold combineSearchResults. intros Hr.
  apply elem_of_sublist with (l2 := jsSort scoresBelow (map snd (mergeAll sem kw)))
    in Hr; [|apply sublist_take].
  rewrite (jsSort_perm scoresBelow) in Hr.
  apply list_elem_of_fmap in Hr as ([k v] & -> & Hin). simpl.
  exists k. rewrite mergeAll_fold in Hin.
  pose proof (mapGet_fold k (weighted sem kw) []) as Hview.
  simpl in Hview. rewrite <- Hview.
  apply mapGet_elem; [|done].
  apply fold_mergeStep_keys. simpl. constructor.
Qed.

Lemma occurrences_keyed (k : string) (l : list (Q * SearchResult)) :
  Forall (fun wr => documentId (snd wr) = k) (occurrences k l).
Proof.
  apply Forall_forall. intros [w r] Hin.
  by apply elem_of_occurrences in Hin as [_ ?].
Qed.

(** C1, on the code: a document that the semantic list names twice (two of
    its chunks were hits) and the keyword list does not name comes out marked
    [hybrid], with the larger weighted semantic score. *)
Theorem repeated_semantic_hit_marked_hybrid :
  map (fun r => (documentId r, relevanceScore r, searchType r))
      (combineSearchResults
         [sampleResult "d1" (9 # 10) semantic;
          sampleResult "d1" (5 # 10) semantic] [] 10)
  = [("d1"%string, 72 # 100, hybrid)].
Proof. vm_compute. reflexivity. Qed.

(** The score of every combined result is the largest weighted score of its
    document: it bounds 0.8 times every semantic score and 0.6 times every
    keyword score of that document, and it equals one of them. *)
Theorem fused_score_is_weighted_max (sem kw : list SearchResult) (limit : nat)
    (r : SearchResult) :
  r ∈ combineSearchResults sem kw limit ->
  (forall s, s ∈ sem -> documentId s = documentId r ->
             relevanceScore s * semanticWeight <= relevanceScore r) /\
  (forall k, k ∈ kw -> documentId k = documentId r ->
             relevanceScore k * keywordWeight <= relevanceScore r) /\
  ((exists s, s ∈ sem /\ documentId s = documentId r /\
              relevanceScore r = relevanceScore s * semanticWeight) \/
   (exists k, k ∈ kw /\ documentId k = documentId r /\
              relevanceScore r = relevanceScore k * keywordWeight)).
Proof.
  intros Hr. apply combine_result_entry in Hr as (key & Hfold).
  pose proof (fuse_fold_spec key _ (occurrences_keyed key (weighted sem kw))) as H.
  rewrite Hfold in H. destruct H as (Hk & Hbound & (w & r0 & Hin & Heq) & _).
  subst key. refine (conj _ (conj _ _)).
  - intros s Hs Hid. apply Hbound. apply elem_of_occurrences. split; [|done].
    apply elem_of_weighted. auto.
  - intros k Hk Hid. apply Hbound. apply elem_of_occurrences. split; [|done].
    apply elem_of_weighted. auto.
  - apply elem_of_occurrences in Hin as [Hin Hid].
    apply elem_of_weighted in Hin as [[-> Hin]|[-> Hin]]; [left|right];
      by exists r0.
Qed.

Lemma fused_score_is_weighted_max_witness :
  let sem := [sampleResult "d1" (9 # 10) semantic;
              sampleResult "d2" (85 # 100) semantic] in
  let kw := [sampleResult "d1" (7 # 10) keyword] in
  let r := set_type hybrid (sampleResult "d1" (72 # 100) semantic) in
  r ∈ combineSearchResults sem kw 10 /\
  ((forall s, s ∈ sem -> documentId s = documentId r ->
              relevanceScore s * semanticWeight <= relevanceScore r) /\
   (forall k, k ∈ kw -> documentId k = documentId r ->
              relevanceScore k * keywordWeight <= relevanceScore r) /\
   ((exists s, s ∈ sem /\ documentId s = documentId r /\
               relevanceScore r = relevanceScore s * semanticWeight) \/
    (exists k, k ∈ kw /\ documentId k = documentId r /\
               relevanceScore r = relevanceScore k * keywordWeight))).
Proof.
  intros sem kw r.
  assert (Hin : r ∈ combineSearchResults sem kw 10).
  { vm_compute. constructor. }
  split; [exact Hin|].
  exact (fused_score_is_weighted_max sem kw 10 r Hin).
Defined.

(** When no result handed in is already marked [hybrid], a combined result
    is marked [hybrid] exactly when its document is visited at least twice
    over the two lists, repeats inside one list included. *)
Theorem hybrid_iff_visited_twice (sem kw : list SearchResult) (limit : nat)
    (r : SearchResult) :
  Forall (fun x => searchType x <> hybrid) (sem ++ kw) ->
  r ∈ combineSearchResults sem kw limit ->
  (searchType r = hybrid <->
   (2 <= length (occurrences (documentId r) (weighted sem kw)))%nat).
Proof.
  intros Hplain Hr. apply combine_result_entry in Hr as (key & Hfold).
  pose proof (fuse_fold_spec key _ (occurrences_keyed key (weighted sem kw))) as H.
  rewrite Hfold in H. destruct H as (Hk & _ & (w & r0 & Hin & _) & Hone & Htwo).
  subst key. split; [|done].
  intros Hhyb.
  destruct (occurrences (documentId r) (weighted sem kw)) as [|[w1 r1] [|x rest]]
    eqn:Hocc; simpl; [by apply elem_of_nil in Hin| |lia].
  exfalso. specialize (Hone w1 r1 eq_refl).
  assert (Hr1 : (w1, r1) ∈ occurrences (documentId r) (weighted sem kw)).
  { rewrite Hocc. constructor. }
  apply elem_of_occurrences in Hr1 as [Hr1 _].
  rewrite Forall_forall in Hplain. apply (Hplain r1); [|congruence].
  apply elem_of_app.
  apply elem_of_weighted in Hr1 as [[_ ?]|[_ ?]]; auto.
Qed.

Lemma hybrid_iff_visited_twice_witness :
  let sem := [sampleResult "d1" (9 # 10) semantic;
              sampleResult "d1" (5 # 10) semantic] in
  let r := set_type hybrid (sampleResult "d1" (72 # 100) semantic) in
  Forall (fun x => searchType x <> hybrid) (sem ++ []) /\
  r ∈ combineSearchResults sem [] 10 /\
  (searchType r = hybrid <->
   (2 <= length (occurrences (documentId r) (weighted sem [])))%nat).
Proof.
  intros sem r.
  assert (Hplain : Forall (fun x => searchType x <> hybrid) (sem ++ [])).
  { repeat constructor; discriminate. }
  assert (Hin : r ∈ combineSearchResults sem [] 10).
  { vm_compute. constructor. }
  split; [exact Hplain|]. split; [exact Hin|].
  exact (hybrid_iff_visited_twice sem [] 10 r Hplain Hin).
Defined.

(** In a list that names no document twice, a document is visited once if
    the list names it and not at all otherwise. *)
Lemma visits_without_repeats (w : Q) (l : list SearchResult) (k : string) :
  NoDup (map documentId l) ->
  (k ∈ map documentId l ->
   exists r, r ∈ l /\ occurrences k (map (pair w) l) = [(w, r)]) /\
  (k ∉ map documentId l -> occurrences k (map (pair w) l) = []).
Proof.
  induction l as [|x l IH]; simpl; intros Hnd.
  - split; [intros H; by apply elem_of_nil in H|done].
  - apply NoDup_cons in Hnd as [Hx Hnd]. destruct (IH Hnd) as [IHin IHout].
    unfold occurrences in *. simpl.
    destruct (String.eqb_spec (documentId x) k) as [<-|Hne]; split.
    + intros _. exists x. split; [by constructor|]. by rewrite IHout.
    + intros H. exfalso. apply H. by constructor.
    + intros [?|Hin]%elem_of_cons; [congruence|].
      destruct (IHin Hin) as (r & Hr & ->). exists r. split; [by constructor|done].
    + intros H. apply IHout. intros Hin. apply H. by constructor.
Qed.

(** C1 holds as written on lists that name no document twice: with semantic
    results typed [semantic] and keyword results typed [keyword], a combined
    result is [hybrid] exactly when its document is in both lists, else
    [semantic] or [keyword] after the one list that holds it. *)
Theorem types_without_repeats (sem kw : list SearchResult) (limit : nat)
    (r : SearchResult) :
  NoDup (map documentId sem) ->
  NoDup (map documentId kw) ->
  Forall (fun x => searchType x = semantic) sem ->
  Forall (fun x => searchType x = keyword) kw ->
  r ∈ combineSearchResults sem kw limit ->
  (searchType r = hybrid <->
   documentId r ∈ map documentId sem /\ documentId r ∈ map documentId kw) /\
  (documentId r ∉ map documentId kw -> searchType r = semantic) /\
  (documentId r ∉ map documentId sem -> searchType r = keyword).
Proof.
  intros Hns Hnk Hts Htk Hr.
  apply combine_result_entry in Hr as (key & Hfold).
  pose proof (fuse_fold_spec key _ (occurrences_keyed key (weighted sem kw))) as H.
  rewrite Hfold in H. destruct H as (Hk & _ & (w & r0 & Hin & _) & Hone & Htwo).
  subst key. set (k := documentId r) in *.
  unfold weighted in *. rewrite occurrences_app in *.
  destruct (visits_without_repeats semanticWeight sem k Hns) as [Hs1 Hs0].
  destruct (visits_without_repeats keywordWeight kw k Hnk) as [Hk1 Hk0].
  rewrite Forall_forall in Hts, Htk.
  destruct (decide (k ∈ map documentId sem)) as [HinS|HoutS];
    destruct (decide (k ∈ map documentId kw)) as [HinK|HoutK].
  - destruct (Hs1 HinS) as (s & _ & Es). destruct (Hk1 HinK) as (q & _ & Eq).
    rewrite Es, Eq in Htwo. simpl in Htwo. rewrite Htwo by lia.
    split; [done|]. split; done.
  - destruct (Hs1 HinS) as (s & Hs & Es). rewrite Es, (Hk0 HoutK) in Hone.
    rewrite (Hone _ _ eq_refl), (Hts s Hs).
    split; [split; [done|tauto]|]. split; done.
  - destruct (Hk1 HinK) as (q & Hq & Eq). rewrite (Hs0 HoutS), Eq in Hone.
    rewrite (Hone _ _ eq_refl), (Htk q Hq).
    split; [split; [done|tauto]|]. split; done.
  - rewrite (Hs0 HoutS), (Hk0 HoutK) in Hin. by apply elem_of_nil in Hin.
Qed.

Lemma types_without_repeats_witness :
  let sem := [sampleResult "d1" (9 # 10) semantic;
              sampleResult "d2" (85 # 100) semantic] in
  let kw := [sampleResult "d1" (7 # 10) keyword] in
  let r := sampleResult "d2" (680 # 1000) semantic in
  (NoDup (map documentId sem) /\ NoDup (map documentId kw) /\
   Forall (fun x => searchType x = semantic) sem /\
   Forall (fun x => searchType x = keyword) kw /\
   r ∈ combineSearchResults sem kw 10) /\
  ((searchType r = hybrid <->
    documentId r ∈ map documentId sem /\ documentId r ∈ map documentId kw) /\
   (documentId r ∉ map documentId kw -> searchType r = semantic) /\
   (documentId r ∉ map documentId sem -> searchType r = keyword)).
Proof.
  intros sem kw r.
  assert (H1 : NoDup (map documentId sem)).
  { apply (bool_decide_unpack _). vm_compute. exact I. }
  assert (H2 : NoDup (map documentId kw)).
  { apply (bool_decide_unpack _). vm_compute. exact I. }
  assert (H3 : Forall (fun x => searchType x = semantic) sem).
  { repeat constructor. }
  assert (H4 : Forall (fun x => searchType x = keyword) kw).
  { repeat constructor. }
  assert (H5 : r ∈ combineSearchResults sem kw 10).
  { vm_compute. do 2 constructor. }
  split; [tauto|].
  exact (types_without_repeats sem kw 10 r H1 H2 H3 H4 H5).
Defined.

Lemma mapGet_Some_elem (k : string) (v : SearchResult) (m : ResultMap) :
  mapGet k m = Some v -> (k, v) ∈ m.
Proof.
  induction m as [|[k0 v0] m IH]; simpl; [done|].
  destruct (String.eqb_spec k0 k) as [->|Hne].
  - intros [= ->]. constructor.
  - intros H. apply elem_of_cons. right. auto.
Qed.

(** Every entry of the merged map is filed under its own document id. *)
Lemma merged_entries_keyed (sem kw : list SearchResult) :
  map documentId (map snd (mergeAll sem kw)) = map fst (mergeAll sem kw).
Proof.
  assert (Hnd : NoDup (map fst (mergeAll sem kw))).
  { rewrite mergeAll_fold. apply fold_mergeStep_keys. constructor. }
  assert (Hkey : Forall (fun kv => documentId (snd kv) = fst kv) (mergeAll sem kw)).
  { apply Forall_forall. intros [k v] Hin. simpl.
    apply mapGet_elem in Hin; [|done].
    rewrite mergeAll_fold in Hin.
    pose proof (mapGet_fold k (weighted sem kw) []) as Hview. simpl in Hview.
    rewrite Hview in Hin.
    pose proof (fuse_fold_spec k _ (occurrences_keyed k (weighted sem kw))) as H.
    rewrite Hin in H. tauto. }
  clear Hnd. induction Hkey as [|[k v] m Hk _ IH]; simpl; [done|].
  simpl in Hk. by rewrite Hk, IH.
Qed.

(** The combined list holds one result for a document at most. *)
Theorem one_result_per_document (sem kw : list SearchResult) (limit : nat) :
  NoDup (map documentId (combineSearchResults sem kw limit)).
Proof.
  unfold combineSearchResults.
  apply sublist_NoDup
    with (l2 := map documentId (jsSort scoresBelow (map snd (mergeAll sem kw)))).
  - rewrite (jsSort_perm scoresBelow), merged_entries_keyed, mergeAll_fold.
    apply fold_mergeStep_keys. constructor.
  - apply fmap_sublist, sublist_take.
Qed.

Lemma sort_by_score (l : list SearchResult) :
  StronglySorted (fun a b => relevanceScore b <= relevanceScore a)
                 (jsSort scoresBelow l).
Proof.
  apply jsSort_sorted; unfold scoresBelow.
  - intros x y z Hxy Hyz. eapply Qle_trans; eauto.
  - intros x y H. apply negb_true_iff in H.
    destruct (Qle_bool (relevanceScore y - relevanceScore x) 0) eqn:E; [done|].
    assert (Hn : ~ relevanceScore y - relevanceScore x <= 0).
    { intros Hle. apply Qle_bool_iff in Hle. congruence. }
    lra.
  - intros x y H. apply negb_false_iff, Qle_bool_iff in H. lra.
Qed.

(** The combined list has at most [limit] results and runs from the highest
    score down. *)
Theorem combined_ranked_and_capped (sem kw : list SearchResult) (limit : nat) :
  (length (combineSearchResults sem kw limit) <= limit)%nat /\
  StronglySorted (fun a b => relevanceScore b <= relevanceScore a)
                 (combineSearchResults sem kw limit).
Proof.
  unfold combineSearchResults. split; [rewrite length_take; lia|].
  eapply StronglySorted_sublist; [apply sublist_take|]. apply sort_by_score.
Qed.

Lemma mergeResult_length (w : Q) (m : ResultMap) (r : SearchResult) :
  (length (mergeResult w m r) <= S (length m))%nat.
Proof.
  unfold mergeResult. destruct (mapGet (documentId r) m).
  - assert (H : forall f k, length (mapUpdate k f m) = length m).
    { intros f k. induction m as [|[k0 v0] m IH]; simpl; [done|].
      destruct (String.eqb k0 k); simpl; congruence. }
    rewrite H. lia.
  - rewrite length_app. simpl. lia.
Qed.

Lemma fold_mergeStep_length (l : list (Q * SearchResult)) (m : ResultMap) :
  (length (fold_left mergeStep l m) <= length m + length l)%nat.
Proof.
  revert m. induction l as [|[w r] l IH]; intros m; simpl; [lia|].
  etransitivity; [apply IH|].
  pose proof (mergeResult_length w m r). unfold mergeStep. simpl. lia.
Qed.

(** When [limit] leaves room for all results handed in, no document is
    lost: every document of either list has its combined result. *)
Theorem fusion_keeps_every_document (sem kw : list SearchResult) (limit : nat)
    (x : SearchResult) :
  (length sem + length kw <= limit)%nat ->
  x ∈ sem ++ kw ->
  exists r, r ∈ combineSearchResults sem kw limit /\
            documentId r = documentId x.
Proof.
  intros Hroom Hx.
  assert (Hocc : exists w, (w, x) ∈ occurrences (documentId x) (weighted sem kw)).
  { apply elem_of_app in Hx as [Hx|Hx];
      [exists semanticWeight|exists keywordWeight];
      apply elem_of_occurrences; (split; [|done]); apply elem_of_weighted; auto. }
  destruct Hocc as (w & Hocc).
  pose proof (fuse_fold_spec (documentId x) _
                (occurrences_keyed (documentId x) (weighted sem kw))) as H.
  destruct (fold_left fuseStep _ None) as [v|] eqn:Hfold;
    [|rewrite H in Hocc; by apply elem_of_nil in Hocc].
  destruct H as (Hk & _). exists v. split; [|done].
  pose proof (mapGet_fold (documentId x) (weighted sem kw) []) as Hview.
  simpl in Hview. rewrite Hfold, <- mergeAll_fold in Hview.
  apply mapGet_Some_elem in Hview.
  unfold combineSearchResults. rewrite take_ge.
  - rewrite (jsSort_perm scoresBelow). apply list_elem_of_fmap.
    by exists (documentId x, v).
  - rewrite (Permutation_length (jsSort_perm scoresBelow _)), length_map.
    rewrite mergeAll_fold.
    etransitivity; [apply fold_mergeStep_length|].
    unfold weighted. rewrite length_app, !length_map. simpl. lia.
Qed.

Lemma fusion_keeps_every_document_witness :
  let sem := [sampleResult "d1" (9 # 10) semantic;
              sampleResult "d2" (85 # 100) semantic] in
  let kw := [sampleResult "d1" (7 # 10) keyword] in
  let x := sampleResult "d2" (85 # 100) semantic in
  ((length sem + length kw <= 3)%nat /\ x ∈ sem ++ kw) /\
  exists r, r ∈ combineSearchResults sem kw 3 /\
            documentId r = documentId x.
Proof.
  intros sem kw x.
  assert (H1 : (length sem + length kw <= 3)%nat) by (simpl; lia).
  assert (H2 : x ∈ sem ++ kw) by (simpl; do 2 constructor).
  split; [done|].
  exact (fusion_keeps_every_document sem kw 3 x H1 H2).
Defined.

End FusionFacts.

(** ** The search service *)

Module ServiceFacts.
Import Highlighter Fusion Faiss Service Query Spec FusionFacts.

Lemma mapM_Forall2 {A B} (f : A -> result B) (xs : list A) (ys : list B) :
  mapM f xs = Ok ys -> Forall2 (fun x y => f x = Ok y) xs ys.
Proof.
  revert ys. induction xs as [|x xs IH]; simpl; intros ys.
  - intros [= <-]. constructor.
  - destruct (f x) as [y|e] eqn:Hx; simpl; [|done].
    destruct (mapM f xs) as [ys'|e]; simpl; [|done].
    intros [= <-]. constructor; auto.
Qed.

Lemma semanticResultsFrom_stored (s : SearchService) (hits : list Hit) :
  forall i, Forall (stored_in s) (semanticResultsFrom s i hits).
Proof.
  induction hits as [|h hits IH]; intros i; simpl; [constructor|].
  destruct (documentIds s !! label h) as [docId|]; [|apply IH].
  destruct (documents s !! docId) as [doc|] eqn:Hdoc; [|apply IH].
  constructor; [|apply IH]. unfold stored_in. simpl. by rewrite Hdoc.
Qed.

(** [semanticSearch] never throws, and answers stored documents only. *)
Lemma semanticSearch_stored (W : World) (s : SearchService) (query : text)
    (limit : nat) :
  exists rs, semanticSearch W s query limit = Ok rs /\ Forall (stored_in s) rs.
Proof.
  unfold semanticSearch.
  destruct (faissIndex s) as [index|]; simpl; [|exists []; split; [done|constructor]].
  destruct (Faiss.search index _ _) as [hits|e]; simpl;
    [|exists []; split; [done|constructor]].
  eexists. split; [done|]. apply semanticResultsFrom_stored.
Qed.

(** [keywordSearch] never throws, and answers stored documents only. *)
Lemma keywordSearch_stored (W : World) (s : SearchService) (query : text)
    (limit : nat) :
  exists rs, keywordSearch W s query limit = Ok rs /\ Forall (stored_in s) rs.
Proof.
  unfold keywordSearch.
  destruct (bm25Index s) as [index|]; simpl; [|exists []; split; [done|constructor]].
  destruct (bm25Search W index query limit) as [hits|e]; simpl;
    [|exists []; split; [done|constructor]].
  eexists. split; [done|].
  apply Forall_forall. intros r Hr.
  apply list_elem_of_omap in Hr as ([docId score] & _ & Hr).
  unfold keywordResultOf in Hr. simpl in Hr.
  destruct (documents s !! docId) as [doc|] eqn:Hdoc; [|done].
  injection Hr as <-. unfold stored_in. simpl. by rewrite Hdoc.
Qed.

(** A combined result carries the document id of a result handed in. *)
Lemma combine_result_source (sem kw : list SearchResult) (limit : nat)
    (r : SearchResult) :
  r ∈ combineSearchResults sem kw limit ->
  exists x, x ∈ sem ++ kw /\ documentId x = documentId r.
Proof.
  intros Hr. apply combine_result_entry in Hr as (key & Hfold).
  pose proof (fuse_fold_spec key _ (occurrences_keyed key (weighted sem kw))) as H.
  rewrite Hfold in H. destruct H as (Hk & _ & (w & r0 & Hin & _) & _).
  apply elem_of_occurrences in Hin as [Hin Hid]. exists r0. split; [|congruence].
  apply elem_of_app. apply elem_of_weighted in Hin as [[_ ?]|[_ ?]]; auto.
Qed.

Lemma candidates_stored (W : World) (s : SearchService) (query : text)
    (o : SearchOptions) :
  Forall (stored_in s) (candidates W s query o).
Proof.
  unfold candidates.
  destruct (semanticSearch_stored W s query (limitOf o * 2)) as (sem2 & -> & Hsem2).
  destruct (semanticSearch_stored W s query (limitOf o)) as (sem1 & -> & Hsem1).
  destruct (keywordSearch_stored W s query (limitOf o * 2)) as (kw & -> & Hkw).
  destruct (useHybridOf o); [|done].
  apply Forall_forall. intros r Hr.
  apply combine_result_source in Hr as (x & Hx & Hid).
  unfold stored_in. rewrite <- Hid.
  assert (Hall : Forall (stored_in s) (sem2 ++ kw)) by (by apply Forall_app).
  rewrite Forall_forall in Hall. by apply Hall.
Qed.

(** The first step of the [try] block of [search] never throws. *)
Lemma searchBody_unfold (W : World) (s : SearchService) (query : text)
    (o : SearchOptions) :
  searchBody W s query o =
  let kept := List.filter (reaches (thresholdOf o)) (candidates W s query o) in
  let* results :=
    if includeHighlightsOf o then mapM (withHighlights W query) kept
    else Ok kept in
  Ok (take (limitOf o) results).
Proof.
  unfold searchBody, candidates.
  destruct (semanticSearch_stored W s query (limitOf o * 2)) as (sem2 & -> & _).
  destruct (semanticSearch_stored W s query (limitOf o)) as (sem1 & -> & _).
  destruct (keywordSearch_stored W s query (limitOf o * 2)) as (kw & -> & _).
  destruct (useHybridOf o); reflexivity.
Qed.

Lemma elem_of_filter_bool {A} (f : A -> bool) (l : list A) (x : A) :
  x ∈ List.filter f l <-> x ∈ l /\ f x = true.
Proof. rewrite !list_elem_of_In. apply List.filter_In. Qed.

Lemma withHighlights_decorates (W : World) (query : text)
    (c r : SearchResult) :
  withHighlights W query c = Ok r -> decorates r c.
Proof.
  unfold withHighlights.
  destruct (generateHighlights _ _ _) as [hs|e]; simpl; [|done].
  intros [= <-]. by repeat split.
Qed.

(** [search] never throws, and each of its results is a candidate of the
    indexes that reaches the threshold. *)
Lemma search_results (W : World) (s : SearchService) (query : text)
    (o : SearchOptions) :
  exists rs,
    search W s query o = Ok rs /\
    Forall (fun r => exists c, c ∈ candidates W s query o /\
                               reaches (thresholdOf o) c = true /\
                               decorates r c) rs.
Proof.
  unfold search, optionsObject. rewrite searchBody_unfold. simpl.
  set (kept := List.filter (reaches (thresholdOf o)) (candidates W s query o)).
  assert (Hkept : Forall (fun r => exists c, c ∈ candidates W s query o /\
                                     reaches (thresholdOf o) c = true /\
                                     decorates r c) kept).
  { apply Forall_forall. intros c [Hc Hr]%elem_of_filter_bool.
    exists c. by repeat split. }
  destruct (includeHighlightsOf o).
  - destruct (mapM (withHighlights W query) kept) as [rs|e] eqn:Hmap; simpl.
    + eexists. split; [done|]. apply Forall_take.
      apply mapM_Forall2 in Hmap. clear -Hmap Hkept.
      induction Hmap as [|c r cs rs Hcr _ IH]; [constructor|].
      apply Forall_cons in Hkept as [(c0 & Hc0 & Hreach & Hdec) Hrest].
      constructor; [|auto].
      exists c0. split; [done|]. split; [done|].
      apply withHighlights_decorates in Hcr.
      destruct Hcr as (? & ? & ?), Hdec as (? & ? & ?).
      repeat split; congruence.
    + exists []. split; [done|constructor].
  - simpl. eexists. split; [done|]. by apply Forall_take.
Qed.

Lemma remove_lookup (s : SearchService) (id : string) :
  documents (removeDocumentFromIndex s id) !! id = None.
Proof. unfold removeDocumentFromIndex. simpl. apply lookup_delete_eq. Qed.

(** C3. Removing a document twice in a row leaves the state that removing
    it once leaves, and no search on that state returns the document,
    whatever the query, the options and the answers of the collaborators. *)
Theorem removal_idempotent_and_hidden (W : World) (s : SearchService)
    (id : string) (query : text) (o : SearchOptions) :
  removeDocumentFromIndex (removeDocumentFromIndex s id) id
    = removeDocumentFromIndex s id /\
  exists rs,
    search W (removeDocumentFromIndex s id) query o = Ok rs /\
    Forall (fun r => documentId r <> id) rs.
Proof.
  split.
  - unfold removeDocumentFromIndex, withDocuments. simpl.
    by rewrite delete_delete_eq.
  - destruct (search_results W (removeDocumentFromIndex s id) query o)
      as (rs & Hrs & Hall).
    exists rs. split; [done|].
    eapply Forall_impl; [apply Hall|]. simpl.
    intros r (c & Hc & _ & Hid & _) Heq.
    pose proof (candidates_stored W (removeDocumentFromIndex s id) query o) as Hst.
    rewrite Forall_forall in Hst. specialize (Hst c Hc).
    unfold stored_in in Hst. rewrite <- Hid, Heq, remove_lookup in Hst.
    by destruct Hst.
Qed.

(** C2, on the code: after the one indexed document is removed, its vector
    is still in the index and in [embeddings], its id still in
    [documentIds], and its text still in the keyword index; only its entry
    of the [documents] map is gone. *)
Theorem removal_leaves_index_entries :
  let s' := removeDocumentFromIndex indexed1 "d1" in
  is_Some (documents indexed1 !! "d1") /\
  documents s' !! "d1" = None /\
  ~ purged s' "d1" /\
  documentIds s' = ["d1"%string] /\
  embeddings s' = [unitVector 1] /\
  (stored <$> faissIndex s') = Some [unitVector 1] /\
  (snd <$> default [] (bm25Index s')) = ["d1"%string].
Proof.
  split; [vm_compute; eauto|]. split; [by vm_compute|].
  split; [|by vm_compute].
  intros [Hids _]. apply Hids. vm_compute. constructor.
Qed.

Lemma mapM_pure {A B} (f : A -> result B) (g : A -> B) (xs : list A) :
  (forall x, f x = Ok (g x)) -> mapM f xs = Ok (map g xs).
Proof.
  intros Hf. induction xs as [|x xs IH]; simpl; [done|].
  by rewrite Hf, IH.
Qed.

(** C4, counterexample: a query of three spaces is not refused. Where the
    keyword index finds nothing for it, [search] returns the ordinary empty
    list and no error; where the keyword index answers the indexed document
    (score 5), [search] returns that document: the query did reach the
    index. Neither outcome depends on the random query embedding. *)
Lemma blank_query_not_rejected :
  forallb is_ws (of_string "   ") = true /\
  search (sampleWorld [] []) indexed1 (of_string "   ") noOptions = Ok [] /\
  exists r,
    search (sampleWorld [] [("d1"%string, 5%Q)]) indexed1 (of_string "   ")
           noOptions = Ok [r] /\
    documentId r = "d1"%string /\ searchType r = keyword /\
    highlights r = Some [].
Proof.
  split; [reflexivity|]. split; [vm_compute; reflexivity|].
  destruct (search (sampleWorld [] [("d1"%string, 5%Q)]) indexed1
                   (of_string "   ") noOptions) as [[|r [|]]|] eqn:E;
    vm_compute in E; try discriminate.
  exists r. split; [reflexivity|].
  injection E as <-. repeat split.
Qed.

(** C4, amended: an empty or blank query does not fail and is not stopped
    before the indexes. [search] returns the candidates of the indexes that
    reach the threshold, cut to [limit], each with an empty list of
    highlights when highlights are asked for. *)
Theorem blank_query_searches_indexes (W : World) (s : SearchService)
    (query : text) (o : SearchOptions) :
  forallb is_ws query = true ->
  search W s query o =
  Ok (take (limitOf o)
        (map (withoutMatches o)
           (List.filter (reaches (thresholdOf o)) (candidates W s query o)))).
Proof.
  intros Hblank. unfold search, optionsObject. rewrite searchBody_unfold. simpl.
  unfold withoutMatches. destruct (includeHighlightsOf o).
  - rewrite (mapM_pure _ (set_highlights [])); [done|].
    intros r. unfold withHighlights.
    rewrite HighlighterFacts.short_words_collect_blank by done. done.
  - by rewrite List.map_id.
Qed.

Lemma blank_query_searches_indexes_witness :
  let W := sampleWorld [] [("d1"%string, 5%Q)] in
  forallb is_ws (of_string "   ") = true /\
  search W indexed1 (of_string "   ") noOptions =
  Ok (take (limitOf noOptions)
        (map (withoutMatches noOptions)
           (List.filter (reaches (thresholdOf noOptions))
              (candidates W indexed1 (of_string "   ") noOptions)))).
Proof.
  intros W. split; [reflexivity|].
  apply (blank_query_searches_indexes W indexed1 (of_string "   ") noOptions).
  reflexivity.
Defined.

Local Open Scope Q_scope.

Lemma l2sq_nonneg (u v : vector) : 0 <= l2sq u v.
Proof.
  revert v. induction u as [|a u IH]; intros [|b v]; simpl; try lra.
  specialize (IH v).
  pose proof (Qsqr_nonneg (a - b)) as Hsq. simpl in Hsq. lra.
Qed.

Lemma scoreOfDistance_half (d : Q) : scoreOfDistance d == 1 - d * (1 # 2).
Proof. unfold scoreOfDistance. field. Qed.

(** Every hit of the vector index is a stored vector with its squared
    distance to one of the queries handed in. *)
Lemma search_hits (index : IndexFlatL2) (x : vector) (k : JsValue)
    (hits : list Hit) :
  Faiss.search index x k = Ok hits ->
  Forall (fun h => exists q v,
            q ∈ rows (dimension index) x /\
            stored index !! label h = Some v /\
            distance h = l2sq q v) hits.
Proof.
  unfold Faiss.search.
  destruct (toCount k) as [n|e]; simpl; [|done].
  destruct (ntotal index <? n)%nat; [done|]. destruct (negb _); [done|].
  intros [= <-]. apply Forall_forall. intros h Hh.
  apply list_elem_of_In, in_concat in Hh as (l & Hl & Hh).
  apply in_map_iff in Hl as (q & <- & Hq).
  apply list_elem_of_In in Hh. unfold nearest in Hh.
  apply elem_of_sublist with (l2 := jsSort farther (allHits index q)) in Hh;
    [|apply sublist_take].
  rewrite (jsSort_perm farther) in Hh. unfold allHits in Hh.
  apply elem_of_lookup_imap in Hh as (i & v & -> & Hv).
  exists q, v. split; [by apply list_elem_of_In|done].
Qed.

(** [Math.min] of a number and the method [ntotal] is [NaN], which the
    index reads as [k = 0]: the search of [semanticSearch] has no hit. *)
Lemma search_nan_empty (index : IndexFlatL2) (x : vector) (hits : list Hit) :
  Faiss.search index x JsNaN = Ok hits -> hits = [].
Proof.
  unfold Faiss.search. simpl. destruct (negb _); [done|]. intros [= <-].
  induction (rows (dimension index) x) as [|q qs IH]; [done|].
  simpl. unfold nearest in *. simpl. exact IH.
Qed.

Lemma semanticResultsFrom_scores (s : SearchService) (hits : list Hit) :
  forall i,
    Forall (fun r => exists h, h ∈ hits /\
                               relevanceScore r = scoreOfDistance (distance h))
           (semanticResultsFrom s i hits).
Proof.
  induction hits as [|h hits IH]; intros i; simpl; [constructor|].
  assert (Hlater : Forall (fun r => exists h', h' ∈ h :: hits /\
                     relevanceScore r = scoreOfDistance (distance h'))
                     (semanticResultsFrom s (S i) hits)).
  { eapply Forall_impl; [apply IH|]. simpl. intros r (h' & Hh' & Hr).
    exists h'. split; [by apply elem_of_cons; right|done]. }
  destruct (documentIds s !! label h) as [docId|]; [|done].
  destruct (documents s !! docId) as [doc|]; [|done].
  constructor; [|done]. exists h. split; [constructor|done].
Qed.


(** As the code reads [ntotal] without a call, [semanticSearch] finds
    nothing, whatever the index holds. *)
Lemma semanticSearch_empty (W : World) (s : SearchService) (query : text)
    (limit : nat) :
  semanticSearch W s query limit = Ok [].
Proof.
  unfold semanticSearch.
  destruct (faissIndex s) as [index|]; simpl; [|done].
  destruct (Faiss.search index _ _) as [hits|e] eqn:Hsearch; simpl; [|done].
  by rewrite (search_nan_empty _ _ _ Hsearch).
Qed.






Local Close Scope Q_scope.





(** When the document store throws or does not know the document,
    [searchByDocument] and [getSimilarDocuments] answer the empty list and
    [updateDocument] leaves the service as it was. *)
Theorem unknown_document_is_empty (W : World) (s : SearchService)
    (id : string) (query : text) (o : SearchOptions) (k : option nat) :
  findById W id = Ok None \/ (exists e, findById W id = Throw e) ->
  searchByDocument W id query o = Ok [] /\
  getSimilarDocuments W s id k = Ok [] /\
  updateDocument W s id = s.
Proof.
  unfold searchByDocument, searchByDocumentBody, getSimilarDocuments,
    getSimilarDocumentsBody, updateDocument.
  intros [->|(e & ->)]; simpl; done.
Qed.

Lemma unknown_document_is_empty_witness :
  (findById (sampleWorld [] []) "d2" = Ok None \/
   (exists e, findById (sampleWorld [] []) "d2" = Throw e)) /\
  (searchByDocument (sampleWorld [] []) "d2" (of_string "fox") noOptions = Ok [] /\
   getSimilarDocuments (sampleWorld [] []) indexed1 "d2" None = Ok [] /\
   updateDocument (sampleWorld [] []) indexed1 "d2" = indexed1).
Proof.
  split; [by left|].
  apply (unknown_document_is_empty (sampleWorld [] []) indexed1 "d2").
  by left.
Defined.

Local Open Scope Q_scope.

Lemma filter_sublist {A} (f : A -> bool) (l : list A) :
  sublist (List.filter f l) l.
Proof.
  induction l as [|x l IH]; simpl; [constructor|].
  destruct (f x); by constructor.
Qed.

Lemma farther_sorted (hits : list Hit) :
  StronglySorted (fun a b => distance a <= distance b) (jsSort farther hits).
Proof.
  apply jsSort_sorted; unfold farther.
  - intros x y z Hxy Hyz. eapply Qle_trans; eauto.
  - intros x y H. apply negb_true_iff in H.
    destruct (Qlt_le_dec (distance y) (distance x)) as [Hlt|Hle]; [lra|].
    apply Qle_bool_iff in Hle. congruence.
  - intros x y H. by apply negb_false_iff, Qle_bool_iff in H.
Qed.

(** The loop of [semanticSearch] keeps the order of the hits, so nearer
    vectors give earlier and higher results. *)
Lemma semanticResultsFrom_ranked (s : SearchService) (hits : list Hit) :
  StronglySorted (fun a b => distance a <= distance b) hits ->
  forall i, StronglySorted ranks_before (semanticResultsFrom s i hits).
Proof.
  induction 1 as [|h hits Hs IH Hh]; intros i; simpl; [constructor|].
  destruct (documentIds s !! label h) as [docId|]; [|apply IH].
  destruct (documents s !! docId) as [doc|]; [|apply IH].
  constructor; [apply IH|].
  eapply Forall_impl; [apply semanticResultsFrom_scores|]. simpl.
  intros r (h' & Hh' & Hr). unfold ranks_before. simpl. rewrite Hr.
  rewrite Forall_forall in Hh. specialize (Hh h' Hh').
  rewrite !scoreOfDistance_half. lra.
Qed.

Lemma semanticSearch_ranked (W : World) (s : SearchService) (query : text)
    (limit : nat) (rs : list SearchResult) :
  semanticSearch W s query limit = Ok rs -> StronglySorted ranks_before rs.
Proof.
  rewrite semanticSearch_empty. intros [= <-]. constructor.
Qed.

Lemma candidates_ranked (W : World) (s : SearchService) (query : text)
    (o : SearchOptions) :
  StronglySorted ranks_before (candidates W s query o).
Proof.
  unfold candidates.
  destruct (semanticSearch_stored W s query (limitOf o * 2)) as (sem2 & -> & _).
  destruct (semanticSearch W s query (limitOf o)) as [sem1|e] eqn:E1;
    [|destruct (useHybridOf o); [|constructor]].
  - destruct (useHybridOf o); [|by eapply semanticSearch_ranked].
    destruct (keywordSearch W s query (limitOf o * 2));
      unfold combineSearchResults;
      (eapply StronglySorted_sublist; [apply sublist_take|apply sort_by_score]).
  - destruct (keywordSearch W s query (limitOf o * 2));
      unfold combineSearchResults;
      (eapply StronglySorted_sublist; [apply sublist_take|apply sort_by_score]).
Qed.

Lemma ranked_transfer (cs rs : list SearchResult) :
  Forall2 (fun c r => relevanceScore r = relevanceScore c) cs rs ->
  StronglySorted ranks_before cs -> StronglySorted ranks_before rs.
Proof.
  induction 1 as [|c r cs rs Hcr Hrest IH]; intros Hs; [constructor|].
  inversion Hs as [|? ? Hcs Hc]; subst. constructor; [auto|].
  clear -Hcr Hrest Hc. induction Hrest as [|c' r' cs rs Hcr' _ IH];
    [constructor|].
  apply Forall_cons in Hc as [Hc' Hc]. constructor; [|auto].
  unfold ranks_before in *. by rewrite Hcr, Hcr'.
Qed.

(** Whatever [search] returns is ranked: at most [limit] results, each
    with a score that reaches the threshold, from the highest score down,
    in the hybrid and in the semantic mode alike. *)
Theorem search_ranked_capped_thresholded (W : World) (s : SearchService)
    (query : text) (o : SearchOptions) (rs : list SearchResult) :
  search W s query o = Ok rs ->
  (length rs <= limitOf o)%nat /\
  Forall (fun r => thresholdOf o <= relevanceScore r) rs /\
  StronglySorted ranks_before rs.
Proof.
  intros Hrs.
  destruct (search_results W s query o) as (rs' & Hrs' & Hall).
  rewrite Hrs in Hrs'. injection Hrs' as <-.
  split; [|split].
  - revert Hrs. unfold search, optionsObject. rewrite searchBody_unfold. simpl.
    destruct (includeHighlightsOf o);
      [destruct (mapM _ _); simpl|simpl]; intros [= <-];
      rewrite ?length_take; simpl; lia.
  - eapply Forall_impl; [apply Hall|]. simpl.
    intros r (c & _ & Hreach & _ & -> & _). by apply Qle_bool_iff in Hreach.
  - revert Hrs. unfold search, optionsObject. rewrite searchBody_unfold. simpl.
    set (kept := List.filter (reaches (thresholdOf o)) (candidates W s query o)).
    assert (Hkept : StronglySorted ranks_before kept).
    { eapply StronglySorted_sublist; [apply filter_sublist|].
      apply candidates_ranked. }
    destruct (includeHighlightsOf o).
    + destruct (mapM (withHighlights W query) kept) as [out|e] eqn:Hmap; simpl;
        intros [= <-]; [|constructor].
      eapply StronglySorted_sublist; [apply sublist_take|].
      eapply ranked_transfer; [|apply Hkept].
      apply mapM_Forall2 in Hmap.
      eapply Forall2_impl; [apply Hmap|]. simpl.
      intros c r Hcr. by apply withHighlights_decorates in Hcr as (_ & ? & _).
    + simpl. intros [= <-].
      eapply StronglySorted_sublist; [apply sublist_take|done].
Qed.

Lemma search_ranked_capped_thresholded_witness :
  let W := sampleWorld [] [("d1"%string, 5)] in
  exists rs,
    search W indexed1 (of_string "fox") noOptions = Ok rs /\
    ((length rs <= limitOf noOptions)%nat /\
     Forall (fun r => thresholdOf noOptions <= relevanceScore r) rs /\
     StronglySorted ranks_before rs).
Proof.
  intros W.
  destruct (search W indexed1 (of_string "fox") noOptions) as [rs|e] eqn:E;
    [|vm_compute in E; discriminate].
  exists rs. split; [reflexivity|].
  exact (search_ranked_capped_thresholded W indexed1 (of_string "fox")
           noOptions rs E).
Defined.

(** A service whose two indexes are missing (never initialized, or whose
    initialization failed before the indexes were built) answers every
    search with the empty list. *)
Theorem search_without_indexes (W : World) (s : SearchService) (query : text)
    (o : SearchOptions) :
  faissIndex s = None -> bm25Index s = None ->
  search W s query o = Ok [].
Proof.
  intros Hf Hb.
  assert (Hnone : candidates W s query o = []).
  { unfold candidates, semanticSearch, keywordSearch. rewrite Hf, Hb. simpl.
    destruct (useHybridOf o); [|done].
    unfold combineSearchResults. simpl. apply take_nil. }
  unfold search, optionsObject. rewrite searchBody_unfold, Hnone. simpl.
  destruct (includeHighlightsOf o); simpl; by rewrite take_nil.
Qed.

Lemma search_without_indexes_witness :
  (faissIndex newService = None /\ bm25Index newService = None) /\
  search failingWorld newService (of_string "fox") noOptions = Ok [].
Proof.
  split; [done|].
  by apply (search_without_indexes failingWorld newService (of_string "fox")
              noOptions).
Defined.

Lemma matchRatio_bounds (matches queryWords : list text) :
  (0 < length matches <= length queryWords)%nat ->
  0 < matchRatio matches queryWords <= 1.
Proof.
  intros [Hpos Hle]. unfold matchRatio.
  assert (Hm : 0 < inject_Z (Z.of_nat (length matches))).
  { change 0 with (inject_Z 0). rewrite <- Zlt_Qlt. lia. }
  assert (Hn : 0 < inject_Z (Z.of_nat (length queryWords))).
  { change 0 with (inject_Z 0). rewrite <- Zlt_Qlt. lia. }
  assert (Hmn : inject_Z (Z.of_nat (length matches))
                <= inject_Z (Z.of_nat (length queryWords))).
  { rewrite <- Zle_Qle. lia. }
  split.
  - apply Qlt_shift_div_l; [done|]. lra.
  - apply Qle_shift_div_r; [done|]. lra.
Qed.

Lemma sentenceResult_spec (id : string) (doc : Document)
    (queryWords : list text) (index : nat) (sentence : text)
    (r : SearchResult) :
  sentenceResult id doc queryWords index sentence = Some r ->
  documentId r = id /\ searchType r = document /\
  content r = trim sentence /\ highlights r = None /\
  0 < relevanceScore r <= 1.
Proof.
  unfold sentenceResult.
  destruct (Nat.ltb_spec 0 (length (List.filter
              (wordMatches (toLowerCase sentence)) queryWords))) as [Hpos|];
    [|done].
  intros [= <-]. simpl. repeat (split; [reflexivity|]).
  apply matchRatio_bounds. split; [done|].
  apply sublist_length, filter_sublist.
Qed.

(** Every result of [searchByDocument] is a sentence of the document asked
    for, typed [document], without highlights, with a score in (0,1]: the
    share of the query words found in the sentence. There are at most
    [options.limit || 10] results, from the highest score down. *)
Theorem searchByDocument_results (W : World) (id : string) (query : text)
    (o : SearchOptions) (rs : list SearchResult) :
  searchByDocument W id query o = Ok rs ->
  (length rs <= limitOr10 o)%nat /\
  StronglySorted ranks_before rs /\
  Forall (fun r => documentId r = id /\ searchType r = document /\
                   highlights r = None /\ 0 < relevanceScore r <= 1) rs.
Proof.
  unfold searchByDocument, searchByDocumentBody.
  destruct (findById W id) as [[doc|]|e]; simpl;
    try (intros [= <-]; split; [simpl; lia|split; constructor]).
  intros [= <-]. split; [rewrite length_take; lia|]. split.
  - eapply StronglySorted_sublist; [apply sublist_take|apply sort_by_score].
  - apply Forall_take, Forall_forall. intros r Hr.
    rewrite (jsSort_perm scoresBelow) in Hr.
    apply list_elem_of_omap in Hr as (x & Hx & Hr). simpl in Hr. subst x.
    apply elem_of_lookup_imap in Hx as (i & sentence & Hx & _).
    symmetry in Hx. apply sentenceResult_spec in Hx. tauto.
Qed.

Lemma searchByDocument_results_witness :
  let W := sampleWorld [] [] in
  exists rs,
    searchByDocument W "d1" (of_string "fox jumps") noOptions = Ok rs /\
    length rs = 2%nat /\
    ((length rs <= limitOr10 noOptions)%nat /\
     StronglySorted ranks_before rs /\
     Forall (fun r => documentId r = "d1"%string /\ searchType r = document /\
                      highlights r = None /\ 0 < relevanceScore r <= 1) rs).
Proof.
  intros W.
  destruct (searchByDocument W "d1" (of_string "fox jumps") noOptions)
    as [rs|e] eqn:E; [|vm_compute in E; discriminate].
  exists rs. split; [reflexivity|]. split.
  - vm_compute in E. by injection E as <-.
  - exact (searchByDocument_results W "d1" (of_string "fox jumps") noOptions
             rs E).
Defined.

Lemma similarFrom_spec (s : SearchService) (id : string) (hits : list Hit) :
  Forall (fun r => sim_id r <> id /\ is_Some (documents s !! sim_id r) /\
                   exists h, h ∈ hits /\
                             sim_score r = scoreOfDistance (distance h))
         (similarFrom s id hits).
Proof.
  induction hits as [|h hits IH]; simpl; [constructor|].
  assert (Hlater : Forall (fun r => sim_id r <> id /\
                     is_Some (documents s !! sim_id r) /\
                     exists h', h' ∈ h :: hits /\
                                sim_score r = scoreOfDistance (distance h'))
                     (similarFrom s id hits)).
  { eapply Forall_impl; [apply IH|]. simpl.
    intros r (? & ? & h' & Hh' & ?). repeat split; try done.
    exists h'. split; [by apply elem_of_cons; right|done]. }
  destruct (documentIds s !! label h) as [similarDocId|]; [|done].
  destruct (String.eqb_spec similarDocId id) as [->|Hne]; [done|].
  destruct (documents s !! similarDocId) as [doc|] eqn:Hdoc; [|done].
  constructor; [|done]. simpl. split; [done|]. split; [by rewrite Hdoc|].
  exists h. split; [constructor|done].
Qed.

(** [getSimilarDocuments] returns at most [limit] documents (5 when the
    caller gives none), never the document asked about, only documents that
    are in the [documents] map, each with a score of at most 1. *)
Theorem similar_documents_exclude_source (W : World) (s : SearchService)
    (id : string) (k : option nat) (rs : list SimilarDocument) :
  getSimilarDocuments W s id k = Ok rs ->
  (length rs <= default 5%nat k)%nat /\
  Forall (fun r => sim_id r <> id /\ is_Some (documents s !! sim_id r) /\
                   sim_score r <= 1) rs.
Proof.
  unfold getSimilarDocuments, getSimilarDocumentsBody.
  destruct (findById W id) as [[doc|]|e]; simpl;
    try (intros [= <-]; split; [simpl; lia|constructor]).
  destruct (d_embeddings doc) as [|first rest]; simpl;
    [intros [= <-]; split; [simpl; lia|constructor]|].
  destruct (faissIndex s) as [index|]; simpl;
    [|intros [= <-]; split; [simpl; lia|constructor]].
  destruct (Faiss.search index _ _) as [hits|e] eqn:Hsearch; simpl;
    [|intros [= <-]; split; [simpl; lia|constructor]].
  intros [= <-]. split; [rewrite length_take; lia|].
  apply Forall_take. eapply Forall_impl; [apply similarFrom_spec|]. simpl.
  intros r (Hne & Hst & h & Hh & Hscore). repeat split; try done.
  apply search_hits in Hsearch. rewrite Forall_forall in Hsearch.
  destruct (Hsearch h Hh) as (q & v & _ & _ & Hd).
  rewrite Hscore, Hd, scoreOfDistance_half.
  pose proof (l2sq_nonneg q v). lra.
Qed.

Lemma similar_documents_exclude_source_witness :
  let W := sampleWorld [] [] in
  exists rs,
    getSimilarDocuments W indexed2 "d1" (Some 1%nat) = Ok rs /\
    length rs = 1%nat /\
    ((length rs <= default 5%nat (Some 1%nat))%nat /\
     Forall (fun r => sim_id r <> "d1"%string /\
                      is_Some (documents indexed2 !! sim_id r) /\
                      sim_score r <= 1) rs).
Proof.
  intros W.
  destruct (getSimilarDocuments W indexed2 "d1" (Some 1%nat)) as [rs|e] eqn:E;
    [|vm_compute in E; discriminate].
  exists rs. split; [reflexivity|]. split.
  - vm_compute in E. by injection E as <-.
  - exact (similar_documents_exclude_source W indexed2 "d1" (Some 1%nat) rs E).
Defined.

Local Close Scope Q_scope.

(** *** The mutators *)

Lemma splitEvery_nil (fuel d : nat) : splitEvery fuel d [] = [].
Proof. by destruct fuel. Qed.

(** An array of exactly [d] numbers is one vector. *)
Lemma rows_exact (d : nat) (x : vector) :
  (0 < length x)%nat -> length x = d -> rows d x = [x].
Proof.
  intros Hpos Hlen. unfold rows. destruct x as [|a x]; [simpl in Hpos; lia|].
  simpl length. cbn [splitEvery].
  rewrite take_ge, drop_ge by lia. by rewrite splitEvery_nil.
Qed.

(** An array of [2 * d] numbers is at least two vectors. *)
Lemma rows_double (d : nat) (x : vector) :
  (0 < d)%nat -> length x = (2 * d)%nat -> (2 <= length (rows d x))%nat.
Proof.
  intros Hd Hlen. unfold rows. destruct x as [|a x]; [simpl in Hlen; lia|].
  simpl length. cbn [splitEvery].
  destruct (drop d (a :: x)) as [|b y] eqn:Hdrop.
  - apply (f_equal length) in Hdrop. rewrite length_drop in Hdrop.
    simpl in *. lia.
  - destruct (length x) as [|n] eqn:Hx; [simpl in Hlen; lia|].
    simpl. lia.
Qed.

Lemma addEmbeddings_no_index (id : string) (es : list Embedding)
    (s : SearchService) :
  faissIndex s = None -> fst (addEmbeddings id s es) = s.
Proof.
  intros Hnone. induction es as [|e es IH]; simpl; [done|].
  unfold addEmbedding. destruct (0 <? length (e_vector e))%nat; [|done].
  by rewrite Hnone.
Qed.

Lemma addEmbeddings_accepted (id : string) (es : list Embedding) :
  forall (s : SearchService) (index : IndexFlatL2),
    faissIndex s = Some index ->
    Forall (fun v => length v = dimension index)
           (List.filter (fun v => (0 <? length v)%nat) (map e_vector es)) ->
    let vs := List.filter (fun v => (0 <? length v)%nat) (map e_vector es) in
    addEmbeddings id s es =
    (mkService (Some (mkIndex (dimension index) (stored index ++ vs)))
               (bm25Index s) (documents s) (embeddings s ++ vs)
               (documentIds s ++ replicate (length vs) id) (initialized s),
     None).
Proof.
  induction es as [|e es IH]; intros s index Hindex Hall; simpl.
  - rewrite !app_nil_r. destruct s, index. simpl in *. by rewrite Hindex.
  - simpl in Hall. unfold addEmbedding.
    destruct (Nat.ltb_spec 0 (length (e_vector e))) as [Hne|Hempty].
    + apply Forall_cons in Hall as [Hlen Hall].
      rewrite Hindex. unfold add.
      replace (length (e_vector e) mod dimension index)%nat with O
        by (rewrite Hlen; symmetry; apply Nat.Div0.mod_same).
      simpl. rewrite (rows_exact (dimension index) (e_vector e)) by done.
      rewrite (IH _ (mkIndex (dimension index) (stored index ++ [e_vector e])))
        by done.
      simpl. by rewrite <- !app_assoc.
    + by apply IH.
Qed.

(** Indexing a document whose vectors all have the dimension of the index
    (1536), in a service that has both indexes: the document is filed in
    [documents], each non-empty vector is appended to the index and to
    [embeddings] with the document id at the same position of
    [documentIds], and the full text is added to the keyword index. *)
Theorem add_indexes_document (s : SearchService) (d : Document)
    (index : IndexFlatL2) (kw : Bm25Index) :
  faissIndex s = Some index ->
  bm25Index s = Some kw ->
  Forall (fun v => length v = dimension index) (vectorsOf d) ->
  addDocumentToIndex s d =
  mkService (Some (mkIndex (dimension index) (stored index ++ vectorsOf d)))
            (Some (kw ++ [(fullTextOf d, _id d)]))
            (<[_id d := storedOf d]> (documents s))
            (embeddings s ++ vectorsOf d)
            (documentIds s ++ replicate (length (vectorsOf d)) (_id d))
            (initialized s).
Proof.
  intros Hindex Hkw Hall. unfold addDocumentToIndex.
  rewrite (addEmbeddings_accepted (_id d) (d_embeddings d) _ index) by done.
  simpl. by rewrite Hkw.
Qed.

Lemma add_indexes_document_witness :
  (faissIndex indexed1 = Some (mkIndex 1536 [unitVector 1]) /\
   bm25Index indexed1 = Some [(fullTextOf doc1, "d1"%string)] /\
   Forall (fun v => length v = 1536%nat) (vectorsOf doc2)) /\
  addDocumentToIndex indexed1 doc2 =
  mkService (Some (mkIndex 1536 ([unitVector 1] ++ vectorsOf doc2)))
            (Some ([(fullTextOf doc1, "d1"%string)] ++ [(fullTextOf doc2, _id doc2)]))
            (<[_id doc2 := storedOf doc2]> (documents indexed1))
            (embeddings indexed1 ++ vectorsOf doc2)
            (documentIds indexed1 ++ replicate (length (vectorsOf doc2)) (_id doc2))
            (initialized indexed1).
Proof.
  assert (H1 : faissIndex indexed1 = Some (mkIndex 1536 [unitVector 1]))
    by reflexivity.
  assert (H2 : bm25Index indexed1 = Some [(fullTextOf doc1, "d1"%string)])
    by reflexivity.
  assert (H3 : Forall (fun v => length v = 1536%nat) (vectorsOf doc2))
    by (repeat constructor).
  split; [exact (conj H1 (conj H2 H3))|].
  exact (add_indexes_document indexed1 doc2 _ _ H1 H2 H3).
Defined.

Lemma addDocumentToIndex_aligned (s : SearchService) (d : Document) :
  aligned s ->
  (forall index, faissIndex s = Some index ->
     Forall (fun v => length v = dimension index) (vectorsOf d)) ->
  aligned (addDocumentToIndex s d).
Proof.
  intros [Hlen Hst] Hexact. unfold addDocumentToIndex.
  destruct (faissIndex s) as [index|] eqn:Hindex.
  - rewrite (addEmbeddings_accepted (_id d) (d_embeddings d) _ index);
      [|done|by apply Hexact].
    simpl. fold (vectorsOf d).
    assert (Hnew : aligned
      (mkService (Some (mkIndex (dimension index) (stored index ++ vectorsOf d)))
         (bm25Index s) (<[_id d:=storedOf d]> (documents s))
         (embeddings s ++ vectorsOf d)
         (documentIds s ++ replicate (length (vectorsOf d)) (_id d))
         (initialized s))).
    { split; simpl; [|by rewrite Hst].
      rewrite !length_app, length_replicate. lia. }
    destruct (bm25Index s); exact Hnew.
  - pose proof (addEmbeddings_no_index (_id d) (d_embeddings d)
        (withDocuments (<[_id d:=storedOf d]> (documents s)) s) Hindex) as Hsame.
    destruct (addEmbeddings _ _ _) as [s2 [err|]]; simpl in Hsame; subst s2.
    + split; simpl; [done|by rewrite Hindex].
    + simpl. destruct (bm25Index s); (split; simpl; [done|]);
        by rewrite Hindex.
Qed.

(** The vector side stays aligned as long as every vector handed to the
    index has exactly its dimension: [addDocumentToIndex],
    [removeDocumentFromIndex] and [updateDocument] then leave [documentIds],
    [embeddings] and the vectors of the index of one length and in one
    order, which the other operations rely on when they read
    [documentIds[label]]. *)
Theorem vector_side_stays_aligned (W : World) (s : SearchService)
    (d : Document) (id : string) :
  aligned s ->
  (forall index doc,
     faissIndex s = Some index ->
     doc = d \/ findById W id = Ok (Some doc) ->
     Forall (fun v => length v = dimension index) (vectorsOf doc)) ->
  aligned (addDocumentToIndex s d) /\
  aligned (removeDocumentFromIndex s id) /\
  aligned (updateDocument W s id).
Proof.
  intros Hs Hexact. split; [|split].
  - apply addDocumentToIndex_aligned; [done|]. intros index Hindex.
    apply (Hexact index d Hindex). by left.
  - done.
  - unfold updateDocument. destruct (findById W id) as [[doc|]|e] eqn:Hdoc;
      try done.
    destruct (_ && _); [|done].
    apply addDocumentToIndex_aligned; [done|]. intros index Hindex.
    apply (Hexact index doc Hindex). by right.
Qed.

Lemma vector_side_stays_aligned_witness :
  let W := sampleWorld [] [] in
  (aligned indexed1 /\
   (forall index doc,
      faissIndex indexed1 = Some index ->
      doc = doc2 \/ findById W "d1" = Ok (Some doc) ->
      Forall (fun v => length v = dimension index) (vectorsOf doc))) /\
  (aligned (addDocumentToIndex indexed1 doc2) /\
   aligned (removeDocumentFromIndex indexed1 "d1") /\
   aligned (updateDocument W indexed1 "d1")).
Proof.
  intros W.
  assert (H1 : aligned indexed1) by (by vm_compute).
  assert (H2 : forall index doc,
             faissIndex indexed1 = Some index ->
             doc = doc2 \/ findById W "d1" = Ok (Some doc) ->
             Forall (fun v => length v = dimension index) (vectorsOf doc)).
  { intros index doc Hindex Hdoc.
    change (Some (mkIndex 1536 [unitVector 1]) = Some index) in Hindex.
    injection Hindex as <-.
    destruct Hdoc as [->|Hdoc].
    - constructor; [reflexivity|constructor].
    - change (Ok (Some doc1) = Ok (Some doc)) in Hdoc. injection Hdoc as <-.
      constructor; [reflexivity|constructor]. }
  split; [exact (conj H1 H2)|].
  exact (vector_side_stays_aligned W indexed1 doc2 "d1" H1 H2).
Defined.

(** An embedding of twice the dimension of the index (3072 numbers for an
    index of 1536) is taken by the index as two vectors, while [embeddings]
    and [documentIds] get one entry: from then on the labels of the index
    no longer match the positions of [documentIds]. *)
Theorem long_vector_breaks_alignment (s : SearchService) (d : Document)
    (index : IndexFlatL2) (e : Embedding) :
  aligned s ->
  faissIndex s = Some index ->
  (0 < dimension index)%nat ->
  d_embeddings d = [e] ->
  length (e_vector e) = (2 * dimension index)%nat ->
  ~ aligned (addDocumentToIndex s d) /\
  (vectorCount s + 2 <= vectorCount (addDocumentToIndex s d))%nat /\
  length (documentIds (addDocumentToIndex s d)) = S (length (documentIds s)).
Proof.
  intros [Hlen Hst] Hindex Hd Hemb Hlong. rewrite Hindex in Hst.
  pose proof (rows_double (dimension index) (e_vector e) Hd Hlong) as Hrows.
  assert (Hrun : exists kw,
    addDocumentToIndex s d =
    mkService (Some (mkIndex (dimension index)
                       (stored index ++ rows (dimension index) (e_vector e))))
              kw (<[_id d:=storedOf d]> (documents s))
              (embeddings s ++ [e_vector e]) (documentIds s ++ [_id d])
              (initialized s)).
  { unfold addDocumentToIndex. rewrite Hemb. simpl. unfold addEmbedding. simpl.
    destruct (Nat.ltb_spec 0 (length (e_vector e))) as [_|]; [|lia].
    rewrite Hindex. unfold add.
    replace (length (e_vector e) mod dimension index)%nat with O
      by (rewrite Hlong; symmetry; apply Nat.Div0.mod_mul).
    simpl. destruct (bm25Index s); eauto. }
  destruct Hrun as (kw & ->). unfold aligned, vectorCount, ntotal. simpl.
  rewrite Hindex. simpl. rewrite !length_app. simpl.
  split; [|split; lia].
  intros [_ Heq]. apply (f_equal length) in Heq.
  rewrite !length_app, Hst in Heq. simpl in Heq. lia.
Qed.

Lemma long_vector_breaks_alignment_witness :
  let e := mkEmbedding "d3_0" (repeat 1%Q 3072) in
  let d := mkDocument "d3" [] (of_string "long vector") [] [] "ready" [e] 0 0 in
  (aligned indexed1 /\
   faissIndex indexed1 = Some (mkIndex 1536 [unitVector 1]) /\
   (0 < 1536)%nat /\ d_embeddings d = [e] /\
   length (e_vector e) = (2 * 1536)%nat) /\
  (~ aligned (addDocumentToIndex indexed1 d) /\
   (vectorCount indexed1 + 2 <= vectorCount (addDocumentToIndex indexed1 d))%nat /\
   length (documentIds (addDocumentToIndex indexed1 d))
     = S (length (documentIds indexed1))).
Proof.
  intros e d.
  assert (H1 : aligned indexed1) by (by vm_compute).
  assert (H2 : faissIndex indexed1 = Some (mkIndex 1536 [unitVector 1]))
    by reflexivity.
  assert (H3 : (0 < 1536)%nat) by lia.
  assert (H4 : d_embeddings d = [e]) by reflexivity.
  assert (H5 : length (e_vector e) = (2 * 1536)%nat) by reflexivity.
  split; [exact (conj H1 (conj H2 (conj H3 (conj H4 H5))))|].
  exact (long_vector_breaks_alignment indexed1 d _ e H1 H2 H3 H4 H5).
Defined.

Lemma grows_refl (s : SearchService) : grows s s.
Proof. by repeat split. Qed.

Lemma grows_trans (s1 s2 s3 : SearchService) :
  grows s1 s2 -> grows s2 s3 -> grows s1 s3.
Proof.
  intros (H1 & H2 & H3) (K1 & K2 & K3). repeat split.
  - by etransitivity.
  - by etransitivity.
  - lia.
Qed.

Lemma addEmbedding_grows (id : string) (s : SearchService) (e : Embedding) :
  grows s (fst (addEmbedding id s e)).
Proof.
  unfold addEmbedding.
  destruct (0 <? length (e_vector e))%nat; [|apply grows_refl].
  destruct (faissIndex s) as [index|] eqn:Hindex; [|apply grows_refl].
  unfold add. destruct (length (e_vector e) mod dimension index =? 0)%nat;
    [|apply grows_refl].
  unfold grows, vectorCount, ntotal. rewrite Hindex. simpl.
  repeat split; try by apply prefix_app_r.
  rewrite length_app. lia.
Qed.

Lemma addEmbeddings_grows (id : string) (es : list Embedding) :
  forall s, grows s (fst (addEmbeddings id s es)).
Proof.
  induction es as [|e es IH]; intros s; simpl; [apply grows_refl|].
  pose proof (addEmbedding_grows id s e) as He.
  destruct (addEmbedding id s e) as [s' [err|]]; [done|].
  eapply grows_trans; [apply He|apply IH].
Qed.

Lemma addDocumentToIndex_grows (s : SearchService) (d : Document) :
  grows s (addDocumentToIndex s d).
Proof.
  unfold addDocumentToIndex.
  pose proof (addEmbeddings_grows (_id d) (d_embeddings d)
                (withDocuments (<[_id d:=storedOf d]> (documents s)) s)) as H.
  destruct (addEmbeddings _ _ _) as [s2 [err|]]; [done|].
  destruct (bm25Index s2); done.
Qed.

Lemma removeDocumentFromIndex_grows (s : SearchService) (id : string) :
  grows s (removeDocumentFromIndex s id).
Proof. by repeat split. Qed.

(** No mutator ever takes a vector out: whatever is added, removed or
    updated, the old [documentIds] and [embeddings] stay as a prefix of the
    new ones and the index counts at least as many vectors as before. The
    vectors of removed and of re-indexed documents pile up. *)
Theorem mutators_never_shrink_vectors (W : World) (s : SearchService)
    (d : Document) (id : string) :
  grows s (addDocumentToIndex s d) /\
  grows s (removeDocumentFromIndex s id) /\
  grows s (updateDocument W s id) /\
  grows s (loadDocuments W s).
Proof.
  split; [apply addDocumentToIndex_grows|].
  split; [apply removeDocumentFromIndex_grows|]. split.
  - unfold updateDocument. destruct (findById W id) as [[doc|]|e];
      try apply grows_refl.
    destruct (_ && _); [|apply removeDocumentFromIndex_grows].
    eapply grows_trans; [|apply addDocumentToIndex_grows].
    apply removeDocumentFromIndex_grows.
  - unfold loadDocuments. destruct (findReady W) as [docs|e]; [|apply grows_refl].
    revert s. induction docs as [|doc docs IH]; intros s; simpl;
      [apply grows_refl|].
    eapply grows_trans; [|apply IH].
    destruct (0 <? length (d_embeddings doc))%nat; [|apply grows_refl].
    apply addDocumentToIndex_grows.
Qed.

(** Re-indexing the one indexed document leaves its old vector in place
    and adds the new one: the index then holds two vectors for one
    document. *)
Example update_duplicates_vectors :
  vectorCount (updateDocument (sampleWorld [] []) indexed1 "d1") = 2%nat /\
  size (documents (updateDocument (sampleWorld [] []) indexed1 "d1")) = 1%nat /\
  documentIds (updateDocument (sampleWorld [] []) indexed1 "d1")
  = ["d1"%string; "d1"%string].
Proof. by vm_compute. Qed.

(** A document whose first non-empty array of numbers the index rejects
    (its length is no multiple of the dimension) is filed in [documents]
    and nowhere else: the error leaves the [try] block before the keyword
    index is reached, and is swallowed. *)
Theorem add_with_rejected_vector (s : SearchService) (d : Document)
    (index : IndexFlatL2) (e : Embedding) (rest : list Embedding) :
  faissIndex s = Some index ->
  d_embeddings d = e :: rest ->
  (0 < length (e_vector e))%nat ->
  (length (e_vector e) mod dimension index)%nat <> O ->
  addDocumentToIndex s d =
  withDocuments (<[_id d := storedOf d]> (documents s)) s.
Proof.
  intros Hindex Hd Hne Hlen. unfold addDocumentToIndex.
  rewrite Hd. simpl. unfold addEmbedding. simpl.
  destruct (Nat.ltb_spec 0 (length (e_vector e))); [|lia].
  rewrite Hindex. unfold add.
  destruct (Nat.eqb_spec (length (e_vector e) mod dimension index) 0); done.
Qed.

Lemma add_with_rejected_vector_witness :
  let e := mkEmbedding "d3_0" [1%Q; 0%Q] in
  let d := mkDocument "d3" [] (of_string "short vector") [] [] "ready" [e] 0 0 in
  (faissIndex indexed1 = Some (mkIndex 1536 [unitVector 1]) /\
   d_embeddings d = [e] /\
   (0 < length (e_vector e))%nat /\
   (length (e_vector e) mod 1536)%nat <> O) /\
  addDocumentToIndex indexed1 d =
  withDocuments (<[_id d := storedOf d]> (documents indexed1)) indexed1.
Proof.
  intros e d.
  assert (H1 : faissIndex indexed1 = Some (mkIndex 1536 [unitVector 1]))
    by reflexivity.
  assert (H2 : d_embeddings d = [e]) by reflexivity.
  assert (H3 : (0 < length (e_vector e))%nat) by (simpl; lia).
  assert (H4 : (length (e_vector e) mod 1536)%nat <> O) by (by vm_compute).
  split; [exact (conj H1 (conj H2 (conj H3 H4)))|].
  exact (add_with_rejected_vector indexed1 d _ e [] H1 H2 H3 H4).
Defined.

Local Open Scope Q_scope.









End ServiceFacts.
